(** * Wordle solver: candidate trie, feedback encoder and guess strategist

    A shallow embedding of [guesser.py]: the [Trie] class (nested dicts
    with an ["eow"] marker and the [list] attribute), [get_matches], and
    the [Guesser] class.

    Conventions of the embedding.
    - A Python [str] used as a word is a [list ascii]; a one-character
      string is an [ascii].
    - A dict of a trie node keeps its insertion order (the order in which
      [dfs] visits the children and therefore the order of the filtered
      [list]); it is an association list.  The ["eow"] key is a three
      character string and can never collide with a one-character edge
      label, so it is kept as a separate flag.
    - Dicts whose iteration order is not observable ([green_pos],
      [gray_pos], the [yellow] Counter, the pattern cache) are [gmap]s.
      Positions are indices produced by [enumerate], hence naturals;
      Counter values are occurrence counts, hence naturals.
    - Python integers are unbounded: feedback codes are in [Z].
    - [filter_words] is embedded twice: as a function on trees (module
      [Trie]), and on a store of dict and list objects (module [Heap]),
      where its assignments are store updates; [dfs_refines_all] relates
      the two.
    - A method of [Guesser] is a function from the object to an outcome
      and the object after the call. The floating point operations of
      the entropy scorer are an interface ([FloatOps]); random draws
      are taken from a stream kept with the object; a [while] loop gets
      a bound on its iterations. *)

From Stdlib Require Import ZArith Lia Ascii String.
From stdpp Require Import gmap strings list fin_maps.

Set Warnings "-register-all".
Local Open Scope Z_scope.

Abbreviation word := (list ascii).

(** String literals for words. *)
Definition w (s : string) : word := list_ascii_of_string s.

(** ** Python exceptions met in the modelled code *)

Inductive exn :=
| IndexError
| ValueError
| KeyError
| AttributeError.

(** The outcome of a call: a value, an exception, or no answer within
    the iterations allowed to a [while] loop. *)
Inductive result (A : Type) :=
| Ok (a : A)
| Raise (e : exn)
| OutOfFuel.
Arguments Ok {A} a.
Arguments Raise {A} e.
Arguments OutOfFuel {A}.

(** ** Feedback encoder *)

Module Encoder.

(** One iteration of the [for i in range(len(target))] loop of
    [get_matches]. [source[i]] raises [IndexError] when [source] is
    shorter than [target]. *)
Definition get_matches_step (source target : word) (score : Z) (i : nat)
  : result Z :=
  match source !! i, target !! i with
  | Some s, Some t =>
      if bool_decide (s = t) then Ok (score + 2 * 3 ^ Z.of_nat i)
      else if bool_decide (s ∈ target) then Ok (score + 3 ^ Z.of_nat i)
      else Ok score
  | _, _ => Raise IndexError
  end.

Fixpoint get_matches_loop (source target : word) (score : Z) (range : list nat)
  : result Z :=
  match range with
  | [] => Ok score
  | i :: rest =>
      match get_matches_step source target score i with
      | Ok score' => get_matches_loop source target score' rest
      | Raise e => Raise e
      | OutOfFuel => OutOfFuel
      end
  end.

Definition get_matches (source target : word) : result Z :=
  get_matches_loop source target 0 (seq 0 (length target)).

(** The digit the specification assigns to position [i]: 2 for an exact
    match, 1 when the guessed letter occurs anywhere in the target, 0
    otherwise. *)
Definition spec_digit (guess target : word) (i : nat) : Z :=
  match guess !! i, target !! i with
  | Some g, Some t =>
      if bool_decide (g = t) then 2
      else if bool_decide (g ∈ target) then 1 else 0
  | _, _ => 0
  end.

(** [sum(digit_i * 3^i)] over the positions [0 .. L-1]. *)
Fixpoint spec_code (guess target : word) (L : nat) : Z :=
  match L with
  | O => 0
  | S n => spec_code guess target n + spec_digit guess target n * 3 ^ Z.of_nat n
  end.

End Encoder.

Import Encoder.


(** ** Candidate trie *)

Module Trie.

(** A node is a Python dict: the ["eow"] flag and the letter-keyed
    entries in insertion order. *)
Inductive node :=
| Node (eow : bool) (items : list (ascii * node)).

Definition eow (n : node) : bool := match n with Node e _ => e end.
Definition items (n : node) : list (ascii * node) :=
  match n with Node _ its => its end.

(** [{}] *)
Definition empty_node : node := Node false [].

(** [cur[char]] for a key that may be absent. *)
Fixpoint get_item (char : ascii) (its : list (ascii * node)) : option node :=
  match its with
  | [] => None
  | (k, v) :: rest => if bool_decide (k = char) then Some v else get_item char rest
  end.

(** The entry of an existing key replaced, its place in the dict kept. *)
Fixpoint set_item (char : ascii) (v : node) (its : list (ascii * node))
  : list (ascii * node) :=
  match its with
  | [] => []
  | (k, v0) :: rest =>
      if bool_decide (k = char) then (k, v) :: rest
      else (k, v0) :: set_item char v rest
  end.

(** The class [Trie]: [self.root] and [self.list]. *)
Record t := mk {
  trie_root : node;
  trie_list : list word;
}.

(** [Trie()] *)
Definition empty : t := {| trie_root := empty_node; trie_list := [] |}.

(** The walk of [insert] below the node [cur]: a missing child is
    created at the end of the dict, an existing one is descended into,
    and the last node gets ["eow"]. *)
Fixpoint insert_node (cur : node) (word : word) : node :=
  match word with
  | [] => Node true (items cur)
  | char :: rest =>
      match get_item char (items cur) with
      | None =>
          Node (eow cur) (items cur ++ [(char, insert_node empty_node rest)])
      | Some child =>
          Node (eow cur) (set_item char (insert_node child rest) (items cur))
      end
  end.

(** [Trie.insert]: the walk, then [self.list.append(word)]. *)
Definition insert (self : t) (word : word) : t :=
  {| trie_root := insert_node (trie_root self) word;
     trie_list := trie_list self ++ [word] |}.

(** The constructor's loop [for word in word_list: trie.insert(word)]. *)
Definition build (word_list : list word) : t :=
  foldl insert empty word_list.

(** Full traversal: every path from the node to an ["eow"] mark, in
    dict order. *)
Fixpoint node_words (n : node) : list word :=
  match n with
  | Node e its =>
      (if e then [[]] else []) ++
      flat_map (fun kv => map (cons (fst kv)) (node_words (snd kv))) its
  end.

(** Does the path [word] end on an ["eow"] mark? *)
Fixpoint has_word (n : node) (word : word) : bool :=
  match word with
  | [] => eow n
  | char :: rest =>
      match get_item char (items n) with
      | Some child => has_word child rest
      | None => false
      end
  end.

(** Python dicts have unique keys. *)
Inductive wf_node : node -> Prop :=
| wf_Node e its :
    NoDup (map fst its) ->
    Forall (fun kv => wf_node (snd kv)) its ->
    wf_node (Node e its).

(** *** [filter_words] *)

(** [yellow.get(char, 0)] *)
Definition yellow_get (yellow : gmap ascii nat) (char : ascii) : nat :=
  default 0%nat (yellow !! char).

(** [current_word.count(char)] *)
Definition str_count (current_word : word) (char : ascii) : nat :=
  count_occ ascii_dec current_word char.

(** The words a descent reaches when it stops at the first ["eow"]
    mark of every path. *)
Fixpoint first_words (n : node) : list word :=
  match n with
  | Node e its =>
      if e then [[]]
      else flat_map (fun kv => map (cons (fst kv)) (first_words (snd kv))) its
  end.

Section filter_words.
Context (gray : gset ascii) (gray_pos : gmap nat ascii)
        (green_pos : gmap nat ascii) (guess : word).

(** [green_values = set(green_pos.values())] *)
Definition green_values : gset ascii := map_img green_pos.

(** [current_pos in d] for [current_pos = len(current_word) - 1]:
    at the root the position is [-1], which is no key of a dict of
    positions. *)
Definition at_current_pos (d : gmap nat ascii) (current_word : word)
  : option ascii :=
  let current_pos := Z.of_nat (length current_word) - 1 in
  if current_pos <? 0 then None else d !! Z.to_nat current_pos.

(** [current_pos in green_pos and current_word[-1] != green_pos[current_pos]] *)
Definition green_check_fails (current_word : word) : bool :=
  match at_current_pos green_pos current_word, last current_word with
  | Some g, Some c => negb (bool_decide (c = g))
  | _, _ => false
  end.

(** [current_pos in gray_pos and current_word[-1] == gray_pos[current_pos]] *)
Definition gray_check_fails (current_word : word) : bool :=
  match at_current_pos gray_pos current_word, last current_word with
  | Some g, Some c => bool_decide (c = g)
  | _, _ => false
  end.

(** The loop over [yellow.items()] at a found word: does some letter
    have [count > 0 and current_word.count(char) < count]? *)
Definition yellow_check_fails (yellow : gmap ascii nat) (current_word : word)
  : bool :=
  existsb (fun kv => (0 <? snd kv)%nat &&
                     (str_count current_word (fst kv) <? snd kv)%nat)
          (map_to_list yellow).

(** [char in gray_set and not yellow.get(char, 0) and char not in green_values] *)
Definition skip_gray (yellow : gmap ascii nat) (char : ascii) : bool :=
  bool_decide (char ∈ gray) && (yellow_get yellow char =? 0)%nat
  && negb (bool_decide (char ∈ green_values)).

(** The yellow Counter handed to the child: a decremented copy when
    [char in yellow and yellow[char] > 0], the same Counter otherwise. *)
Definition updated_yellow (yellow : gmap ascii nat) (char : ascii)
  : gmap ascii nat :=
  match yellow !! char with
  | Some k => if (0 <? k)%nat then <[char := (k - 1)%nat]> yellow else yellow
  | None => yellow
  end.

(** The loop [for char, next_node in items] of [dfs], with the
    recursive call as a parameter. [new_items] is the contents of
    [new_node] so far; the keys of [cur] are distinct, so
    [new_node[char] = new_child] adds an entry at the end. *)
Definition explore
    (dfs : node -> word -> gmap ascii nat -> list word -> bool * node * list word)
    (current_word : word) (yellow : gmap ascii nat)
  : list (ascii * node) -> list (ascii * node) -> bool -> list word ->
    bool * node * list word :=
  fix go its new_items valid_child new_list {struct its} :=
    match its with
    | [] => (valid_child, Node false new_items, new_list)
    | (char, next_node) :: rest =>
        if skip_gray yellow char
        then go rest new_items valid_child new_list
        else
          match dfs next_node (current_word ++ [char])
                    (updated_yellow yellow char) new_list with
          | (true, new_child, new_list') =>
              go rest (new_items ++ [(char, new_child)]) true new_list'
          | (false, _, new_list') =>
              go rest new_items valid_child new_list'
          end
    end.

(** The inner function [dfs]. The result is the returned flag, the
    contents of [new_node] after the call (the caller passes a fresh
    [{}]), and [new_trie.list] after the call. *)
Fixpoint dfs (cur : node) (current_word : word) (yellow : gmap ascii nat)
         (new_list : list word) {struct cur} : bool * node * list word :=
  match cur with
  | Node cur_eow cur_items =>
      if green_check_fails current_word then (false, empty_node, new_list)
      else if gray_check_fails current_word then (false, empty_node, new_list)
      else if cur_eow then
        if bool_decide (current_word = guess) then (false, empty_node, new_list)
        else if yellow_check_fails yellow current_word
             then (false, empty_node, new_list)
        else (true, Node true [], new_list ++ [current_word])
      else explore dfs current_word yellow cur_items [] false new_list
  end.

(** [Trie.filter_words]: [dfs(self.root, "", yellow, new_trie.root)]
    on a fresh [new_trie]. *)
Definition filter_words (self : t) (yellow : gmap ascii nat) : t :=
  match dfs (trie_root self) [] yellow [] with
  | (_, new_root, new_list) =>
      {| trie_root := new_root; trie_list := new_list |}
  end.

(** *** What the filter keeps, for the proofs *)

(** Both position checks made on entering a node pass. *)
Definition pos_ok (current_word : word) : bool :=
  negb (green_check_fails current_word) && negb (gray_check_fails current_word).

(** The decisions [dfs] takes along one path: [current_word] has been
    walked, [rest] is still to walk down to an ["eow"] mark. *)
Fixpoint path_kept (current_word : word) (yellow : gmap ascii nat) (rest : word)
  : bool :=
  pos_ok current_word &&
  match rest with
  | [] => negb (bool_decide (current_word = guess))
          && negb (yellow_check_fails yellow current_word)
  | char :: rest' =>
      negb (skip_gray yellow char)
      && path_kept (current_word ++ [char]) (updated_yellow yellow char) rest'
  end.

(** The suffixes below [cur] that [dfs] keeps when it enters [cur]
    with [current_word] and [yellow]. *)
Definition kept_words (cur : node) (current_word : word)
           (yellow : gmap ascii nat) : list word :=
  filter (fun rest => path_kept current_word yellow rest = true) (first_words cur).

(** The part of [kept_words] that goes through one entry of the dict. *)
Definition child_kept (current_word : word) (yellow : gmap ascii nat)
           (kv : ascii * node) : list word :=
  if skip_gray yellow (fst kv) then []
  else map (cons (fst kv))
           (kept_words (snd kv) (current_word ++ [fst kv])
                       (updated_yellow yellow (fst kv))).

(** What a call of [dfs] on [cur] does, for every current word,
    Counter and list so far. *)
Definition dfs_ok (cur : node) : Prop :=
  forall u y acc, exists n',
    dfs cur u y acc =
      (bool_decide (kept_words cur u y <> []), n',
       acc ++ map (app u) (kept_words cur u y))
    /\ node_words n' = kept_words cur u y
    /\ first_words n' = kept_words cur u y
    /\ (kept_words cur u y = [] -> n' = empty_node).

(** The closed form of the decisions on the path [u ++ s], when [u]
    has been walked from the root with the Counter [y0]. *)
Definition path_conditions (y0 : gmap ascii nat) (u s : word) : Prop :=
  (forall p x, (length u <= p)%nat -> (u ++ s) !! p = Some x ->
      (forall g, green_pos !! p = Some g -> x = g)
      /\ (forall g, gray_pos !! p = Some g -> x <> g))
  /\ u ++ s <> guess
  /\ (forall c, (yellow_get y0 c - str_count (u ++ s) c <= str_count (u ++ s) c)%nat)
  /\ (forall c, c ∈ gray -> c ∉ green_values -> c ∈ s ->
         (str_count (u ++ s) c <= yellow_get y0 c)%nat).

(** A node that [dfs], entered with [u] and [y], copies as it is. *)
Definition stable (u : word) (y : gmap ascii nat) (n : node) : Prop :=
  forall acc, dfs n u y acc = (true, n, acc ++ map (app u) (node_words n)).

Definition stable_entry (u : word) (y : gmap ascii nat) (kv : ascii * node)
  : Prop :=
  skip_gray y (fst kv) = false
  /\ stable (u ++ [fst kv]) (updated_yellow y (fst kv)) (snd kv).

(** The green condition of the contract: [w[p] == green_pos[p]] at
    every position [p] of [w] that is a key of [green_pos]. *)
Definition green_ok (v : word) : Prop :=
  forall p g, green_pos !! p = Some g -> (p < length v)%nat -> v !! p = Some g.

(** [w[p] != gray_pos[p]] for every key [p] of [gray_pos]. *)
Definition gray_pos_ok (v : word) : Prop :=
  forall p g, gray_pos !! p = Some g -> v !! p <> Some g.

(** Every letter with a required count [k > 0] occurs at least [k]
    times. *)
Definition yellow_ok (yellow : gmap ascii nat) (v : word) : Prop :=
  forall c k, yellow !! c = Some k -> (0 < k)%nat -> (k <= str_count v c)%nat.

(** Every letter with a required count [k > 0] occurs. *)
Definition yellow_present (yellow : gmap ascii nat) (v : word) : Prop :=
  forall c k, yellow !! c = Some k -> (0 < k)%nat -> c ∈ v.

(** The gray condition as the contract words it: no letter that is
    gray, has no positive yellow count and is no green letter. *)
Definition gray_absent (yellow : gmap ascii nat) (v : word) : Prop :=
  forall c, c ∈ v -> c ∈ gray -> ~ (0 < yellow_get yellow c)%nat ->
            c ∉ green_values -> False.

(** The gray condition as [dfs] applies it: a gray letter that is no
    green letter occurs at most as often as its yellow count. *)
Definition gray_capped (yellow : gmap ascii nat) (v : word) : Prop :=
  forall c, c ∈ gray -> c ∉ green_values ->
            (str_count v c <= yellow_get yellow c)%nat.

(** The five conditions of the contract of [filter_words]. *)
Definition contract_keeps (yellow : gmap ascii nat) (v : word) : Prop :=
  green_ok v /\ gray_pos_ok v /\ yellow_ok yellow v
  /\ gray_absent yellow v /\ v <> guess.

End filter_words.

(** All words of the trie have length [L] (the dictionary contract). *)
Definition uniform (L : nat) (n : node) : Prop :=
  forall v : word, v ∈ node_words n -> length v = L.

(** The word set of a trie: what a full traversal of its nested dicts
    yields. *)
Definition word_set (self : t) : gset word :=
  list_to_set (node_words (trie_root self)).

(** *** Concrete tries and arguments used in the examples below *)

Definition ex_dict : list word :=
  map w ["apple"; "angle"; "ankle"; "axles"; "agile"]%string.

Definition ex_gray_p : gset ascii := {[ "p"%char ]}.
Definition ex_gray_pos_p : gmap nat ascii :=
  {[ 1%nat := "p"%char; 2%nat := "p"%char ]}.
Definition ex_green_a : gmap nat ascii := {[ 0%nat := "a"%char ]}.

Definition ex_repeat_trie : t := build [w "aabcd"].
Definition ex_gray_a : gset ascii := {[ "a"%char ]}.
Definition ex_yellow_a1 : gmap ascii nat := {[ "a"%char := 1%nat ]}.
Definition ex_yellow_e2 : gmap ascii nat := {[ "e"%char := 2%nat ]}.

End Trie.

(** ** The trie as Python holds it: dict objects in a store *)

(** [filter_words] builds its result by mutating dicts and a list. To
    say that it leaves the source trie alone, the nested dicts and the
    [list] attribute are objects of a store here, referred to by
    address, and every assignment of [dfs] is a store update. The
    Counter [yellow] stays a value: [dfs] only ever writes to a copy of
    it. *)

Module Heap.

Import Trie.

Abbreviation loc := nat.

Inductive obj :=
| DictObj (eow : bool) (items : list (ascii * loc))
| ListObj (elems : list word).

(** The object at address [l] of the store [h] is [h !! l]; a new
    object takes the next address. *)
Abbreviation heap := (list obj).

Definition alloc (o : obj) (h : heap) : loc * heap := (length h, h ++ [o]).

(** A [Trie] instance: the addresses in [self.root] and [self.list]. *)
Record trie_ref := mk_ref {
  tr_root : loc;
  tr_list : loc;
}.

(** [node["eow"] = True] *)
Definition set_eow (l : loc) (h : heap) : option heap :=
  match h !! l with
  | Some (DictObj _ its) => Some (<[l := DictObj true its]> h)
  | _ => None
  end.

(** [node[char] = child], for a [char] that is no key of [node] yet
    (the keys of the dict [dfs] iterates over are distinct). *)
Definition set_child (l : loc) (char : ascii) (child : loc) (h : heap)
  : option heap :=
  match h !! l with
  | Some (DictObj e its) => Some (<[l := DictObj e (its ++ [(char, child)])]> h)
  | _ => None
  end.

(** [lst.append(word)] *)
Definition list_append (l : loc) (word : word) (h : heap) : option heap :=
  match h !! l with
  | Some (ListObj ws) => Some (<[l := ListObj (ws ++ [word])]> h)
  | _ => None
  end.

Section filter_words.
Context (gray : gset ascii) (gray_pos : gmap nat ascii)
        (green_pos : gmap nat ascii) (guess : word).

(** The loop [for char, next_node in items] over the snapshot
    [list(cur.items())], with the recursive call as a parameter. *)
Definition explore
    (dfs : heap -> loc -> word -> gmap ascii nat -> loc -> loc ->
           option (bool * heap))
    (current_word : word) (yellow : gmap ascii nat) (new_node new_list : loc)
  : list (ascii * loc) -> bool -> heap -> option (bool * heap) :=
  fix go its valid_child h {struct its} :=
    match its with
    | [] => Some (valid_child, h)
    | (char, next_node) :: rest =>
        if skip_gray gray green_pos yellow char
        then go rest valid_child h
        else
          let '(new_child, h1) := alloc (DictObj false []) h in
          match dfs h1 next_node (current_word ++ [char])
                    (updated_yellow yellow char) new_child new_list with
          | Some (true, h2) =>
              match set_child new_node char new_child h2 with
              | Some h3 => go rest true h3
              | None => None
              end
          | Some (false, h2) => go rest valid_child h2
          | None => None
          end
    end.

(** [dfs(cur, current_word, yellow, new_node)] on the store; [new_list]
    is the address of [new_trie.list]. [None] when [fuel] nested calls
    do not suffice or an address does not hold the expected object. *)
Fixpoint dfs (fuel : nat) (h : heap) (cur : loc) (current_word : word)
         (yellow : gmap ascii nat) (new_node new_list : loc) {struct fuel}
  : option (bool * heap) :=
  match fuel with
  | O => None
  | S fuel' =>
      match h !! cur with
      | Some (DictObj cur_eow cur_items) =>
          if green_check_fails green_pos current_word then Some (false, h)
          else if gray_check_fails gray_pos current_word then Some (false, h)
          else if cur_eow then
            if bool_decide (current_word = guess) then Some (false, h)
            else if yellow_check_fails yellow current_word then Some (false, h)
            else
              match set_eow new_node h with
              | Some h1 =>
                  match list_append new_list current_word h1 with
                  | Some h2 => Some (true, h2)
                  | None => None
                  end
              | None => None
              end
          else explore (dfs fuel') current_word yellow new_node new_list
                       cur_items false h
      | _ => None
      end
  end.

(** [filter_words]: [new_trie = Trie()] allocates a dict and a list,
    [dfs] fills them, and the new instance is returned. *)
Definition filter_words (fuel : nat) (h : heap) (self : trie_ref)
           (yellow : gmap ascii nat) : option (trie_ref * heap) :=
  let '(new_root, h1) := alloc (DictObj false []) h in
  let '(new_list, h2) := alloc (ListObj []) h1 in
  match dfs fuel h2 (tr_root self) [] yellow new_root new_list with
  | Some (_, h3) => Some ({| tr_root := new_root; tr_list := new_list |}, h3)
  | None => None
  end.

End filter_words.

(** The store holds the nested dicts [n] at address [l], every dict
    below [l] at an address in [lo, hi). *)
Inductive repr (h : heap) (lo hi : nat) : loc -> node -> Prop :=
| repr_Node l e kids its :
    h !! l = Some (DictObj e kids) ->
    Forall2 (fun kl kv => fst kl = fst kv
                          /\ (lo <= snd kl < hi)%nat
                          /\ repr h lo hi (snd kl) (snd kv)) kids its ->
    repr h lo hi l (Node e its).

(** An entry of a dict in the store against an entry of the model. *)
Definition child_rel (h : heap) (lo hi : nat)
           (kl : ascii * loc) (kv : ascii * node) : Prop :=
  fst kl = fst kv /\ (lo <= snd kl < hi)%nat /\ repr h lo hi (snd kl) (snd kv).

(** The number of nested calls [dfs] needs below a node. *)
Fixpoint depth (n : node) : nat :=
  match n with
  | Node _ its => S (foldr (fun kv d => Nat.max (depth (snd kv)) d) 0%nat its)
  end.

(** Every object of [h] other than those at [a] and [b] is the same in
    [h']. *)
Definition unchanged_except (a b : loc) (h h' : heap) : Prop :=
  forall l, (l < length h)%nat -> l <> a -> l <> b -> h' !! l = h !! l.

(** What a call of the store [dfs] does on the dicts of [t], against
    the result of the model [dfs]. *)
Definition dfs_refines (gray : gset ascii) (gray_pos green_pos : gmap nat ascii)
           (guess : word) (t : node) : Prop :=
  forall fuel h cur u y nn nl lst B b n' lst',
    Trie.dfs gray gray_pos green_pos guess t u y lst = (b, n', lst') ->
    (depth t <= fuel)%nat ->
    repr h 0 B cur t ->
    (B <= nn)%nat -> (B <= nl)%nat -> nn <> nl ->
    h !! nn = Some (DictObj false []) ->
    h !! nl = Some (ListObj lst) ->
    exists h',
      dfs gray gray_pos green_pos guess fuel h cur u y nn nl = Some (b, h')
      /\ (length h <= length h')%nat
      /\ unchanged_except nn nl h h'
      /\ h' !! nl = Some (ListObj lst')
      /\ repr h' (length h) (length h') nn n'.

(** A small store for the examples: the trie of the word [ab] and of
    the word [c], with its list. *)
Definition ex_heap : heap :=
  [ DictObj false [("a"%char, 1%nat); ("c"%char, 3%nat)];
    DictObj false [("b"%char, 2%nat)];
    DictObj true [];
    DictObj true [];
    ListObj [w "ab"; w "c"] ].
Definition ex_ref : trie_ref := {| tr_root := 0%nat; tr_list := 4%nat |}.
Definition ex_node : node :=
  Node false [("a"%char, Node false [("b"%char, Node true [])]);
              ("c"%char, Node true [])].

End Heap.

(** ** The guesser *)

Module Guesser.

(** The floating-point operations the entropy scorer uses, as an
    interface: [count / tot_counts] on two ints, [np.log2], product,
    difference, the comparison [<], and the constants [0],
    [float("-inf")] and [0.5]. *)
Class FloatOps (F : Type) := {
  f_zero : F;
  f_neg_inf : F;
  f_half : F;
  f_of_int : Z -> F;
  f_div_int : Z -> Z -> F;
  f_log2 : F -> F;
  f_mul : F -> F -> F;
  f_sub : F -> F -> F;
  f_lt : F -> F -> bool;
}.

(** *** [collections.Counter], in insertion order *)

Section counter.
Context {K : Type} `{EqDecision K}.

(** [counter[k] += 1] *)
Fixpoint counter_incr (k : K) (c : list (K * nat)) : list (K * nat) :=
  match c with
  | [] => [(k, 1%nat)]
  | (k0, n) :: rest =>
      if bool_decide (k0 = k) then (k0, S n) :: rest
      else (k0, n) :: counter_incr k rest
  end.

(** [Counter(iterable)] *)
Definition Counter (l : list K) : list (K * nat) :=
  foldl (fun c k => counter_incr k c) [] l.

(** The place of an entry in the order of [most_common]: after every
    entry whose count is not smaller. *)
Fixpoint insert_by_count (kv : K * nat) (sorted : list (K * nat))
  : list (K * nat) :=
  match sorted with
  | [] => [kv]
  | x :: rest =>
      if (snd x <? snd kv)%nat then kv :: x :: rest
      else x :: insert_by_count kv rest
  end.

(** [counter.most_common(n)]: by decreasing count, entries of equal
    count in the order first met. *)
Definition most_common (n : nat) (c : list (K * nat)) : list (K * nat) :=
  take n (foldl (fun sorted kv => insert_by_count kv sorted) [] c).

End counter.

(** The knowledge [subset_trie] draws from one feedback string; the
    four attributes are assigned together. *)
Record constraint_set := mk_constraints {
  yellow : gmap ascii nat;
  gray : gset ascii;
  green_pos : gmap nat ascii;
  gray_pos : gmap nat ascii;
}.

(** The attributes of a [Guesser], and the random source its methods
    draw from ([rng] is the stream of draws, [rng_pos] how many have
    been taken). [word_trie] and [constraints] are [None] while the
    attribute does not exist ([word_trie] also when it is [None]).
    [_manual] is [self._manual == "manual"]. *)
Record t := mk {
  _word_list : list word;
  _manual : bool;
  _tried : list word;
  _word_trie : Trie.t;
  _pattern_cache : gmap word (gmap word Z);
  letter_frequency_abs : list (ascii * nat);
  letter_frequency_pos : gmap nat (list (ascii * nat));
  _tried_letter : gset ascii;
  word_list : list word;
  opening : word;
  word_trie : option Trie.t;
  constraints : option constraint_set;
  rng : nat -> nat;
  rng_pos : nat;
}.

(** Attribute assignments [self.x = v]. *)
Definition set_tried (v : list word) (self : t) : t :=
  mk (_word_list self) (_manual self) v (_word_trie self)
    (_pattern_cache self) (letter_frequency_abs self)
    (letter_frequency_pos self) (_tried_letter self) (word_list self)
    (opening self) (word_trie self) (constraints self) (rng self)
    (rng_pos self).
Definition set_pattern_cache (v : gmap word (gmap word Z)) (self : t) : t :=
  mk (_word_list self) (_manual self) (_tried self) (_word_trie self) v
    (letter_frequency_abs self) (letter_frequency_pos self)
    (_tried_letter self) (word_list self) (opening self) (word_trie self)
    (constraints self) (rng self) (rng_pos self).
Definition set_letter_frequency_abs (v : list (ascii * nat)) (self : t) : t :=
  mk (_word_list self) (_manual self) (_tried self) (_word_trie self)
    (_pattern_cache self) v (letter_frequency_pos self) (_tried_letter self)
    (word_list self) (opening self) (word_trie self) (constraints self)
    (rng self) (rng_pos self).
Definition set_letter_frequency_pos (v : gmap nat (list (ascii * nat))) (self : t) : t :=
  mk (_word_list self) (_manual self) (_tried self) (_word_trie self)
    (_pattern_cache self) (letter_frequency_abs self) v (_tried_letter self)
    (word_list self) (opening self) (word_trie self) (constraints self)
    (rng self) (rng_pos self).
Definition set_tried_letter (v : gset ascii) (self : t) : t :=
  mk (_word_list self) (_manual self) (_tried self) (_word_trie self)
    (_pattern_cache self) (letter_frequency_abs self)
    (letter_frequency_pos self) v (word_list self) (opening self)
    (word_trie self) (constraints self) (rng self) (rng_pos self).
Definition set_word_list (v : list word) (self : t) : t :=
  mk (_word_list self) (_manual self) (_tried self) (_word_trie self)
    (_pattern_cache self) (letter_frequency_abs self)
    (letter_frequency_pos self) (_tried_letter self) v (opening self)
    (word_trie self) (constraints self) (rng self) (rng_pos self).
Definition set_opening (v : word) (self : t) : t :=
  mk (_word_list self) (_manual self) (_tried self) (_word_trie self)
    (_pattern_cache self) (letter_frequency_abs self)
    (letter_frequency_pos self) (_tried_letter self) (word_list self) v
    (word_trie self) (constraints self) (rng self) (rng_pos self).
Definition set_word_trie (v : option Trie.t) (self : t) : t :=
  mk (_word_list self) (_manual self) (_tried self) (_word_trie self)
    (_pattern_cache self) (letter_frequency_abs self)
    (letter_frequency_pos self) (_tried_letter self) (word_list self)
    (opening self) v (constraints self) (rng self) (rng_pos self).
Definition set_constraints (v : option constraint_set) (self : t) : t :=
  mk (_word_list self) (_manual self) (_tried self) (_word_trie self)
    (_pattern_cache self) (letter_frequency_abs self)
    (letter_frequency_pos self) (_tried_letter self) (word_list self)
    (opening self) (word_trie self) v (rng self) (rng_pos self).
Definition set_rng_pos (v : nat) (self : t) : t :=
  mk (_word_list self) (_manual self) (_tried self) (_word_trie self)
    (_pattern_cache self) (letter_frequency_abs self)
    (letter_frequency_pos self) (_tried_letter self) (word_list self)
    (opening self) (word_trie self) (constraints self) (rng self) v.

(** *** Methods: state passing with exceptions *)

(** A method call: its outcome and the object after it (assignments
    made before an exception stay). *)
Definition M (A : Type) : Type := t -> result A * t.

Definition ret {A} (a : A) : M A := fun self => (Ok a, self).
Definition raise {A} (e : exn) : M A := fun self => (Raise e, self).
Definition out_of_fuel {A} : M A := fun self => (OutOfFuel, self).
Definition bind {A B} (m : M A) (k : A -> M B) : M B :=
  fun self =>
    match m self with
    | (Ok a, self') => k a self'
    | (Raise e, self') => (Raise e, self')
    | (OutOfFuel, self') => (OutOfFuel, self')
    end.
Definition get {A} (f : t -> A) : M A := fun self => (Ok (f self), self).
Definition assign (f : t -> t) : M unit := fun self => (Ok tt, f self).

#[global] Instance M_ret : MRet M := @ret.
#[global] Instance M_bind : MBind M := fun A B k m => bind m k.

(** A value that may be missing, with the exception its absence raises. *)
Definition expect {A} (e : exn) (o : option A) : M A :=
  match o with Some a => ret a | None => raise e end.

(** *** The random source *)

(** The next draw. *)
Definition next_draw : M nat :=
  fun self => (Ok (rng self (rng_pos self)), set_rng_pos (S (rng_pos self)) self).

(** [np.random.choice(a, size=size)], with replacement; an empty [a]
    with a positive [size] raises [ValueError]. *)
Fixpoint random_choice (a : list ascii) (size : nat) : M (list ascii) :=
  match size with
  | O => ret []
  | S size' =>
      match a with
      | [] => raise ValueError
      | c0 :: _ =>
          r ← next_draw;
          rest ← random_choice a size';
          ret (nth (r mod length a) a c0 :: rest)
      end
  end.

Fixpoint insert_by_key (kv : nat * ascii) (sorted : list (nat * ascii))
  : list (nat * ascii) :=
  match sorted with
  | [] => [kv]
  | x :: rest =>
      if (fst kv <? fst x)%nat then kv :: x :: rest
      else x :: insert_by_key kv rest
  end.

(** [sorted(letters, key=lambda x: random())]: one draw per letter,
    then a stable sort on the draws. *)
Fixpoint random_keys (letters : list ascii) : M (list (nat * ascii)) :=
  match letters with
  | [] => ret []
  | c :: rest =>
      r ← next_draw;
      keyed ← random_keys rest;
      ret ((r, c) :: keyed)
  end.

Definition sorted_by_random (letters : list ascii) : M (list ascii) :=
  keyed ← random_keys letters;
  ret (map snd (foldl (fun sorted kv => insert_by_key kv sorted) [] keyed)).

Definition lift {A} (r : result A) : M A := fun self => (r, self).

(** A [for] loop whose body is run for its effects. *)
Fixpoint for_each {A} (l : list A) (body : A -> M unit) : M unit :=
  match l with
  | [] => ret tt
  | x :: rest => _ ← body x; for_each rest body
  end.

(** A loop that collects one value per element. *)
Fixpoint collect {A B} (l : list A) (body : A -> M B) : M (list B) :=
  match l with
  | [] => ret []
  | x :: rest => y ← body x; ys ← collect rest body; ret (y :: ys)
  end.

(** *** [update_frequencies] *)

(** The generator [word[i] for word in word_list]. *)
Fixpoint letters_at (i : nat) (words : list word) : result (list ascii) :=
  match words with
  | [] => Ok []
  | word :: rest =>
      match word !! i with
      | None => Raise IndexError
      | Some c =>
          match letters_at i rest with
          | Ok l => Ok (c :: l)
          | Raise e => Raise e
          | OutOfFuel => OutOfFuel
          end
      end
  end.

(** [update_frequencies()], with both flags at their default [True]. *)
Definition update_frequencies : M unit :=
  wl ← get word_list;
  match wl with
  | [] => ret tt
  | _ =>
      _ ← assign (set_letter_frequency_abs (Counter (concat wl)));
      _ ← assign (set_letter_frequency_pos ∅);
      for_each (seq 0 5) (fun i =>
        letters ← lift (letters_at i wl);
        assign (fun self =>
          set_letter_frequency_pos
            (<[i := Counter letters]> (letter_frequency_pos self)) self))
  end.

(** *** [get_max_entropy_word] *)

(** The loop [for w2 in targets] on the cache row [cur] of [w1]; the
    row is returned as it stands when [get_matches] raises. *)
Fixpoint fill_row (w1 : word) (targets : list word) (cur : gmap word Z)
         (pattern_distribution : list (Z * nat))
  : result (list (Z * nat)) * gmap word Z :=
  match targets with
  | [] => (Ok pattern_distribution, cur)
  | w2 :: rest =>
      match cur !! w2 with
      | Some code =>
          fill_row w1 rest cur (counter_incr code pattern_distribution)
      | None =>
          match get_matches w1 w2 with
          | Ok code =>
              fill_row w1 rest (<[w2 := code]> cur)
                       (counter_incr code pattern_distribution)
          | Raise e => (Raise e, cur)
          | OutOfFuel => (OutOfFuel, cur)
          end
      end
  end.

(** The pattern distribution of [w1]: its cache row is created when
    missing, and [cur] is that very dict, so every new code lands in
    [self._pattern_cache]. *)
Definition pattern_distribution_of (w1 : word) (targets : list word)
  : M (list (Z * nat)) :=
  fun self =>
    let cache := _pattern_cache self in
    let cur := default ∅ (cache !! w1) in
    let '(r, cur') := fill_row w1 targets cur [] in
    (r, set_pattern_cache (<[w1 := cur']> cache) self).

Section entropy.
Context {F : Type} `{FloatOps F}.

(** The loop over [pattern_distribution.values()]. [log2_cache] only
    memoizes [np.log2] on equal arguments and is left out. *)
Definition entropy_of (pattern_distribution : list (Z * nat)) (tot_counts : Z) : F :=
  foldl (fun entropy kv =>
           let prob := f_div_int (Z.of_nat (snd kv)) tot_counts in
           f_sub entropy (f_mul prob (f_log2 prob)))
        f_zero pattern_distribution.

(** The loop [for w1 in sources], on [(best_guess, max_entropy)]. *)
Fixpoint best_of (sources targets : list word) (best : word * F) : M (word * F) :=
  match sources with
  | [] => ret best
  | w1 :: rest =>
      dist ← pattern_distribution_of w1 targets;
      let entropy := entropy_of dist (Z.of_nat (length targets)) in
      if f_lt (snd best) entropy
      then best_of rest targets (w1, entropy)
      else best_of rest targets best
  end.

Definition get_max_entropy_word (sources targets : list word) : M (word * F) :=
  match targets with
  | [] => ret (hd [] sources, f_zero)
  | _ => best_of sources targets ([], f_neg_inf)
  end.

(** *** [frequency_guess_non_word] *)

(** [itertools.product] of the per-position letter lists: the first
    position varies slowest. *)
Fixpoint product (ls : list (list ascii)) : list (list ascii) :=
  match ls with
  | [] => [[]]
  | l :: rest => flat_map (fun c => map (cons c) (product rest)) l
  end.

Definition frequency_guess_non_word : M word :=
  letters_by_position ← collect (seq 0 5) (fun i =>
    pos ← get letter_frequency_pos;
    i_freqs ← expect KeyError (pos !! i);
    ret (map fst (most_common 3 i_freqs)));
  let candidates :=
    filter (fun combination => length (remove_dups combination) = 5%nat)
           (product letters_by_position) in
  match candidates with
  | [] =>
      freq ← get letter_frequency_abs;
      ret (map fst (most_common 5 freq))
  | _ =>
      wl ← get word_list;
      best ← get_max_entropy_word candidates wl;
      ret (fst best)
  end.

(** *** [get_shortcut_words] *)

Definition get_shortcut_words : M (list word) :=
  freq ← get letter_frequency_abs;
  let unique_letters : gset ascii := list_to_set (map fst freq) in
  cs ← get constraints;
  cs ← expect AttributeError cs;
  let green_letters : gset ascii := map_img (green_pos cs) in
  let yellow_letters : gset ascii := dom (yellow cs) in
  let letters_left := unique_letters ∖ green_letters ∖ yellow_letters in
  if (5 <? size letters_left)%nat then ret []
  else
    shortcut_word ← sorted_by_random (elements letters_left);
    let letters_left := elements letters_left in
    if (length shortcut_word <? 5)%nat
    then
      extra ← random_choice letters_left (5 - length shortcut_word);
      ret [shortcut_word ++ extra]
    else ret [shortcut_word].

(** *** [_get_guess] *)

Definition _get_guess : M word :=
  _ ← update_frequencies;
  wl ← get word_list;
  let remaining_words := length wl in
  match wl with
  | [] => ret []
  | [only] => ret only
  | _ =>
      scored ←
        (if (remaining_words <? 50)%nat
         then
           tried ← get _tried;
           shortcut_words ←
             (if (2 <? remaining_words)%nat && (length tried <? 5)%nat
              then get_shortcut_words else ret []);
           best ← get_max_entropy_word (wl ++ shortcut_words) wl;
           let max_possible_entropy := f_log2 (f_of_int (Z.of_nat remaining_words)) in
           if f_lt (f_sub max_possible_entropy (snd best)) f_half
              || (5 <=? length tried)%nat
           then ret (Some (fst best)) else ret None
         else ret None);
      match scored with
      | Some guess => ret guess
      | None => frequency_guess_non_word
      end
  end.

End entropy.

(** *** [restart_game] *)

Definition restart_game : M unit :=
  _ ← assign (set_tried []);
  _ ← assign (fun self => set_tried_letter (list_to_set (opening self)) self);
  _ ← assign (fun self => set_word_list (_word_list self) self);
  assign (set_word_trie None).

(** *** [subset_trie] *)

(** [str.isalpha] on one character of the feedback string. *)
Definition isalpha (c : ascii) : bool :=
  let n := nat_of_ascii c in
  ((65 <=? n) && (n <=? 90) || (97 <=? n) && (n <=? 122))%nat.

Definition empty_constraints : constraint_set :=
  {| yellow := ∅; gray := ∅; green_pos := ∅; gray_pos := ∅ |}.

(** The body of [for i, letter in enumerate(guess)]. *)
Definition read_feedback (result : word) (il : nat * ascii) : M unit :=
  let '(i, letter) := il in
  r ← expect IndexError (result !! i);
  cs ← get constraints;
  cs ← expect AttributeError cs;
  if bool_decide (r = "+"%char) then
    assign (set_constraints (Some
      {| yellow := yellow cs; gray := {[ letter ]} ∪ gray cs;
         green_pos := green_pos cs; gray_pos := <[i := letter]> (gray_pos cs) |}))
  else if bool_decide (r = "-"%char) then
    assign (set_constraints (Some
      {| yellow := <[letter := S (Trie.yellow_get (yellow cs) letter)]> (yellow cs);
         gray := gray cs;
         green_pos := green_pos cs; gray_pos := <[i := letter]> (gray_pos cs) |}))
  else if isalpha r then
    assign (set_constraints (Some
      {| yellow := yellow cs; gray := gray cs;
         green_pos := <[i := letter]> (green_pos cs); gray_pos := gray_pos cs |}))
  else ret tt.

Definition subset_trie (result : word) : M unit :=
  tried ← get _tried;
  match last tried with
  | None => ret tt
  | Some guess =>
      if negb (length result =? 5)%nat then ret tt
      else
        _ ← assign (set_constraints (Some empty_constraints));
        _ ← for_each (imap pair guess) (read_feedback result);
        own ← get word_trie;
        base ← get _word_trie;
        let parent_trie := default base own in
        cs ← get constraints;
        cs ← expect AttributeError cs;
        let filtered :=
          Trie.filter_words (gray cs) (gray_pos cs) (green_pos cs) guess
                            parent_trie (yellow cs) in
        _ ← assign (set_word_trie (Some filtered));
        assign (set_word_list (Trie.trie_list filtered))
  end.

(** *** [get_guess] *)

(** The loop [while guess in self._tried or len(guess) != 5], allowed
    [fuel] iterations. *)
Fixpoint avoid_crashes (fuel : nat) (guess : word) : M word :=
  tried ← get _tried;
  if bool_decide (guess ∈ tried) || negb (length guess =? 5)%nat
  then
    match fuel with
    | O => out_of_fuel
    | S fuel' =>
        letters ← random_choice (concat tried) 5;
        avoid_crashes fuel' letters
    end
  else ret guess.

(** [get_guess(result)]; [typed] is what the console returns in manual
    mode. *)
Definition get_guess {F : Type} `{FloatOps F}
           (fuel : nat) (typed : word) (result : word) : M word :=
  manual ← get _manual;
  if (manual : bool) then ret typed
  else
    tried ← get _tried;
    _ ← (match tried with
         | [] => ret tt
         | _ => if (length result =? 5)%nat then subset_trie result else ret tt
         end);
    tried ← get _tried;
    guess ← (match tried with
             | [] => get opening
             | _ => _get_guess (F := F)
             end);
    guess ← avoid_crashes fuel guess;
    _ ← assign (fun self => set_tried (_tried self ++ [guess]) self);
    ret guess.

(** [Guesser(manual)], on the word list read from [wordlist.yaml] and
    a random source. [opening] is assigned last. *)
Definition init {F : Type} `{FloatOps F}
           (manual : bool) (loaded : list word) (source : nat -> nat)
  : result unit * t :=
  (_ ← update_frequencies;
   first ← frequency_guess_non_word (F := F);
   assign (set_opening first))
  {| _word_list := loaded; _manual := manual; _tried := [];
     _word_trie := Trie.build loaded; _pattern_cache := ∅;
     letter_frequency_abs := []; letter_frequency_pos := ∅;
     _tried_letter := ∅; word_list := loaded; opening := [];
     word_trie := None; constraints := None;
     rng := source; rng_pos := 0%nat |}.

(** *** The pattern cache invariant *)

(** Every stored code is the code [get_matches] computes. *)
Definition cache_ok (cache : gmap word (gmap word Z)) : Prop :=
  forall w1 row w2 code,
    cache !! w1 = Some row -> row !! w2 = Some code ->
    get_matches w1 w2 = Ok code.

Definition row_ok (w1 : word) (row : gmap word Z) : Prop :=
  forall w2 code, row !! w2 = Some code -> get_matches w1 w2 = Ok code.

(** *** Frame: a method that leaves the guess history alone *)

Definition keeps_tried {A} (m : M A) : Prop :=
  forall self, _tried (snd (m self)) = _tried self.

(** *** The selection of [get_max_entropy_word], without the cache *)

(** The pattern distribution of [w1] over the targets, every code
    computed by [get_matches]. *)
Definition plain_distribution (w1 : word) (targets : list word)
  : result (list (Z * nat)) :=
  fst (fill_row w1 targets ∅ []).

Section selection.
Context {F : Type} `{FloatOps F}.

(** Every source with the entropy the scorer computes for it. *)
Fixpoint scored (sources targets : list word) : result (list (word * F)) :=
  match sources with
  | [] => Ok []
  | w1 :: rest =>
      match plain_distribution w1 targets with
      | Ok dist =>
          match scored rest targets with
          | Ok l => Ok ((w1, entropy_of dist (Z.of_nat (length targets))) :: l)
          | Raise e => Raise e
          | OutOfFuel => OutOfFuel
          end
      | Raise e => Raise e
      | OutOfFuel => OutOfFuel
      end
  end.


(** The running best: replaced only by a strictly greater entropy. *)
Definition pick (scores : list (word * F)) (best : word * F) : word * F :=
  foldl (fun b x => if f_lt (snd b) (snd x) then x else b) best scores.

End selection.

(** *** Inputs of the examples *)

(** Fixed-point numbers in thousandths, with an integer logarithm: a
    coarse stand-in for the floats, used only to run the examples. *)
Definition milli : FloatOps Z := {|
  f_zero := 0;
  f_neg_inf := -1000000000;
  f_half := 500;
  f_of_int := fun z => z * 1000;
  f_div_int := fun a b => a * 1000 / b;
  f_log2 := fun x => (Z.log2 x - 10) * 1000;
  f_mul := fun a b => a * b / 1000;
  f_sub := fun a b => a - b;
  f_lt := fun a b => a <? b;
|}.

(** A solver on the five-word dictionary of the specification's
    scenario, after its opening guess and one round of feedback. *)
Definition ex_started : t :=
  snd (init (H := milli) false Trie.ex_dict (fun i => i)).
Definition ex_round1 : t :=
  snd (get_guess (H := milli) 1 [] [] ex_started).
Definition ex_round2 : t :=
  snd (get_guess (H := milli) 1 [] (w "a++--") ex_round1).

(** The same solver with one code already in its cache. *)
Definition ex_cached : t :=
  set_pattern_cache {[ w "angle" := {[ w "apple" := 218 ]} ]} ex_started.

(** A solver whose dictionary has a single letter. *)
Definition ex_one_letter {F : Type} `{FloatOps F} (source : nat -> nat) : t :=
  snd (init (F := F) false [w "aaaaa"] source).

End Guesser.
(** * Proofs *)

(** ** Feedback encoder: proofs *)

Lemma get_matches_loop_app source target score r1 r2 :
  get_matches_loop source target score (r1 ++ r2) =
  match get_matches_loop source target score r1 with
  | Ok s => get_matches_loop source target s r2
  | Raise e => Raise e
  | OutOfFuel => OutOfFuel
  end.
Proof.
  revert score. induction r1 as [|i r1 IH]; intros score; simpl; [done|].
  destruct (get_matches_step source target score i); [apply IH | done | done].
Qed.

Lemma get_matches_step_digit source target score i :
  (i < length source)%nat -> (i < length target)%nat ->
  get_matches_step source target score i =
  Ok (score + spec_digit source target i * 3 ^ Z.of_nat i).
Proof.
  intros Hs Ht. unfold get_matches_step, spec_digit.
  destruct (lookup_lt_is_Some_2 source i Hs) as [s ->].
  destruct (lookup_lt_is_Some_2 target i Ht) as [t ->].
  repeat case_bool_decide; f_equal; lia.
Qed.

Lemma get_matches_loop_prefix source target n :
  (n <= length source)%nat -> (n <= length target)%nat ->
  get_matches_loop source target 0 (seq 0 n) = Ok (spec_code source target n).
Proof.
  induction n as [|n IH]; intros Hs Ht; [done|].
  rewrite seq_S, get_matches_loop_app, IH by lia. simpl.
  rewrite get_matches_step_digit by lia. done.
Qed.

Lemma spec_digit_range guess target i : 0 <= spec_digit guess target i <= 2.
Proof.
  unfold spec_digit. destruct (guess !! i), (target !! i);
    repeat case_bool_decide; lia.
Qed.

Lemma spec_code_range guess target L :
  0 <= spec_code guess target L <= 3 ^ Z.of_nat L - 1.
Proof.
  induction L as [|n IH]; [simpl; lia|].
  simpl spec_code. rewrite Nat2Z.inj_succ, Z.pow_succ_r by lia.
  pose proof (spec_digit_range guess target n).
  assert (0 < 3 ^ Z.of_nat n) by (apply Z.pow_pos_nonneg; lia). nia.
Qed.

Lemma spec_code_self (v : word) L :
  (L <= length v)%nat -> spec_code v v L = 3 ^ Z.of_nat L - 1.
Proof.
  induction L as [|n IH]; intros HL; [done|].
  simpl spec_code. rewrite IH by lia.
  rewrite Nat2Z.inj_succ, Z.pow_succ_r by lia.
  unfold spec_digit. destruct (lookup_lt_is_Some_2 v n ltac:(lia)) as [c ->].
  rewrite bool_decide_eq_true_2 by done. lia.
Qed.

(** General form of the encoder's contract, for words of any common
    length. *)
Lemma get_matches_spec_code (guess target : word) :
  length guess = length target ->
  get_matches guess target = Ok (spec_code guess target (length target)).
Proof.
  intros Hlen. unfold get_matches. apply get_matches_loop_prefix; lia.
Qed.

(** C2: for words of length 5, [get_matches] is the base-3 sum of the
    per-position digits (2 exact, 1 present anywhere in the target, 0
    absent), its value lies in [0, 3^5 - 1], and a word matched against
    itself gives the all-exact code [3^5 - 1]. *)
Theorem get_matches_base3 (guess target : word) :
  length guess = 5%nat -> length target = 5%nat ->
  get_matches guess target = Ok (spec_code guess target 5)
  /\ 0 <= spec_code guess target 5 <= 3 ^ 5 - 1
  /\ get_matches guess guess = Ok (3 ^ 5 - 1).
Proof.
  intros Hg Ht. split; [|split].
  - rewrite get_matches_spec_code by lia. by rewrite Ht.
  - apply (spec_code_range guess target 5).
  - rewrite get_matches_spec_code, Hg by done.
    f_equal. apply (spec_code_self guess 5). lia.
Qed.

Lemma get_matches_base3_witness :
  get_matches (w "crane") (w "nacre") = Ok (spec_code (w "crane") (w "nacre") 5)
  /\ 0 <= spec_code (w "crane") (w "nacre") 5 <= 3 ^ 5 - 1
  /\ get_matches (w "crane") (w "crane") = Ok (3 ^ 5 - 1).
Proof. apply (get_matches_base3 (w "crane") (w "nacre")); reflexivity. Defined.

(** ** Candidate trie: structure *)

Import Trie.

(** Induction over a node and, inside it, over its entries. *)
Lemma node_rect_items (P : node -> Prop) :
  (forall e its, Forall (fun kv => P (snd kv)) its -> P (Node e its)) ->
  forall n, P n.
Proof.
  intros step. fix IH 1. intros [e its]. apply step.
  induction its as [|kv its IHits]; constructor; [apply IH | exact IHits].
Qed.

Lemma elem_of_flat_map {A B} (f : A -> list B) (l : list A) (b : B) :
  b ∈ flat_map f l <-> exists a, a ∈ l /\ b ∈ f a.
Proof.
  rewrite list_elem_of_In, in_flat_map.
  split; intros (a & Ha & Hb); exists a; split; by apply list_elem_of_In.
Qed.

Lemma elem_of_node_words e its (v : word) :
  v ∈ node_words (Node e its) <->
  (v = [] /\ e = true) \/
  exists c child rest, v = c :: rest /\ (c, child) ∈ its /\ rest ∈ node_words child.
Proof.
  simpl. rewrite elem_of_app, elem_of_flat_map. split.
  - intros [He | ([c child] & Hin & Hv)].
    + left. destruct e; [|by apply elem_of_nil in He].
      apply list_elem_of_singleton in He. done.
    + right. simpl in Hv. apply list_elem_of_fmap in Hv as (rest & -> & Hrest).
      by exists c, child, rest.
  - intros [[-> ->] | (c & child & rest & -> & Hin & Hrest)].
    + left. apply list_elem_of_here.
    + right. exists (c, child). split; [done|]. simpl.
      apply list_elem_of_fmap. by exists rest.
Qed.

Lemma get_item_Some c v its : get_item c its = Some v -> (c, v) ∈ its.
Proof.
  induction its as [|[k v0] its IH]; simpl; [done|].
  case_bool_decide as Hk.
  - intros [= ->]. subst. apply list_elem_of_here.
  - intros H. apply list_elem_of_further, IH, H.
Qed.

Lemma get_item_None c its : get_item c its = None <-> c ∉ map fst its.
Proof.
  induction its as [|[k v0] its IH]; simpl.
  - split; [intros _; apply not_elem_of_nil | done].
  - case_bool_decide as Hk.
    + subst. split; [intros [=]|]. intros Hc. exfalso. apply Hc, list_elem_of_here.
    + rewrite IH, not_elem_of_cons.
      split; [intros Hc; split; [congruence | done] | by intros [_ Hc]].
Qed.

Lemma get_item_NoDup c v its :
  NoDup (map fst its) -> (c, v) ∈ its -> get_item c its = Some v.
Proof.
  induction its as [|[k v0] its IH]; simpl; intros Hnd Hin.
  - by apply elem_of_nil in Hin.
  - apply NoDup_cons in Hnd as [Hk Hnd].
    apply elem_of_cons in Hin as [[= -> ->] | Hin].
    + by rewrite bool_decide_eq_true_2.
    + case_bool_decide as Hkc; [|by apply IH].
      subst. exfalso. apply Hk.
      apply list_elem_of_fmap. by exists (c, v).
Qed.

Lemma set_item_keys c v its : map fst (set_item c v its) = map fst its.
Proof.
  induction its as [|[k v0] its IH]; simpl; [done|].
  case_bool_decide; simpl; [done | by rewrite IH].
Qed.

Lemma get_set_item c c' v its :
  get_item c' (set_item c v its) =
  if bool_decide (c = c') then (fun _ => v) <$> get_item c its else get_item c' its.
Proof.
  induction its as [|[k v0] its IH]; simpl; [by case_bool_decide|].
  destruct (decide (k = c)) as [->|Hkc];
    [rewrite (bool_decide_eq_true_2 (c = c)) by done
    |rewrite (bool_decide_eq_false_2 (k = c)) by done];
    simpl; rewrite ?IH; repeat case_bool_decide; congruence.
Qed.

Lemma set_item_same c v its : get_item c its = Some v -> set_item c v its = its.
Proof.
  induction its as [|[k v0] its IH]; simpl; [done|].
  case_bool_decide; [by intros [= ->] | intros Hget; by rewrite IH].
Qed.

Lemma get_item_snoc c c' v its :
  get_item c' (its ++ [(c, v)]) =
  match get_item c' its with
  | Some x => Some x
  | None => if bool_decide (c = c') then Some v else None
  end.
Proof.
  induction its as [|[k v0] its IH]; simpl; [by case_bool_decide|].
  destruct (bool_decide (k = c')); [done | apply IH].
Qed.

Lemma elem_of_set_item c v v0 its :
  get_item c its = Some v0 -> Forall (fun kv => wf_node (snd kv)) its ->
  wf_node v -> Forall (fun kv => wf_node (snd kv)) (set_item c v its).
Proof.
  induction its as [|[k x] its IH]; simpl; [done|].
  intros Hget Hall Hv. apply Forall_cons in Hall as [Hx Hall].
  case_bool_decide; constructor; auto.
Qed.

Lemma wf_empty_node : wf_node empty_node.
Proof. constructor; simpl; [apply NoDup_nil_2 | constructor]. Qed.

Lemma wf_node_child c child n :
  wf_node n -> get_item c (items n) = Some child -> wf_node child.
Proof.
  intros Hwf Hget. destruct Hwf as [e its Hnd Hall]. simpl in Hget.
  apply get_item_Some in Hget.
  rewrite Forall_forall in Hall. apply (Hall (c, child) Hget).
Qed.

Lemma wf_insert_node n (v : word) : wf_node n -> wf_node (insert_node n v).
Proof.
  revert n. induction v as [|c rest IH]; intros n Hwf; simpl.
  - destruct Hwf. by constructor.
  - destruct (get_item c (items n)) as [child|] eqn:Hget.
    + pose proof (wf_node_child _ _ _ Hwf Hget) as Hchild.
      destruct Hwf as [e its Hnd Hall]. simpl in *. constructor.
      * by rewrite set_item_keys.
      * eapply elem_of_set_item; eauto.
    + destruct Hwf as [e its Hnd Hall]. simpl in *. constructor.
      * rewrite map_app. simpl. apply NoDup_app. split; [done|].
        split; [|apply NoDup_singleton].
        intros x Hx Hx'. apply list_elem_of_singleton in Hx'. subst.
        by apply get_item_None in Hget.
      * apply Forall_app. split; [done|].
        constructor; [|constructor]. simpl. apply IH, wf_empty_node.
Qed.

(** On a dict with unique keys, the traversal lists a word exactly when
    walking its letters ends on a mark. *)
Lemma node_words_has_word n :
  wf_node n -> forall v : word, v ∈ node_words n <-> has_word n v = true.
Proof.
  induction n as [e its IH] using node_rect_items. intros Hwf v.
  inversion Hwf as [e' its' Hnd Hall]; subst.
  rewrite elem_of_node_words. destruct v as [|c rest]; simpl.
  - split; [intros [[_ ->] | (c & child & rest & [=] & _)]; done|].
    intros ->. by left.
  - split.
    + intros [[[=] _] | (c' & child & rest' & [= <- <-] & Hin & Hrest)].
      rewrite (get_item_NoDup _ _ _ Hnd Hin).
      rewrite Forall_forall in IH, Hall.
      apply (IH (c, child) Hin), Hrest. apply (Hall (c, child) Hin).
    + destruct (get_item c its) as [child|] eqn:Hget; [|done].
      intros Hhas. right. apply get_item_Some in Hget.
      exists c, child, rest. split; [done|]. split; [done|].
      rewrite Forall_forall in IH, Hall.
      apply (IH (c, child) Hget); [apply (Hall (c, child) Hget) | done].
Qed.

Lemma has_word_empty_node (v : word) : has_word empty_node v = false.
Proof. by destruct v. Qed.

(** The words after an insertion: the inserted one and the old ones. *)
Lemma has_word_insert_node n (u v : word) :
  has_word (insert_node n u) v = bool_decide (v = u) || has_word n v.
Proof.
  revert n v. induction u as [|c rest IH]; intros n v;
    cbn [insert_node].
  - destruct v as [|c' v]; cbn [has_word eow items].
    + by rewrite bool_decide_eq_true_2.
    + by rewrite bool_decide_eq_false_2.
  - destruct (get_item c (items n)) as [child|] eqn:Hget; destruct v as [|c' v];
      cbn [has_word eow items]; try by rewrite bool_decide_eq_false_2.
    + rewrite get_set_item, Hget. case_bool_decide as Hc; cbn [fmap option_fmap option_map].
      * subst. rewrite Hget, IH.
        destruct (has_word child v); [by rewrite !orb_true_r|].
        rewrite !orb_false_r. apply bool_decide_ext.
        split; [by intros -> | by intros [= ->]].
      * rewrite bool_decide_eq_false_2; [done|]. by intros [= -> ->].
    + rewrite get_item_snoc. destruct (get_item c' (items n)) as [x|] eqn:Hget'.
      * rewrite bool_decide_eq_false_2; [done|]. intros [= -> ->]. congruence.
      * case_bool_decide as Hc.
        -- subst. rewrite IH, has_word_empty_node, !orb_false_r.
           apply bool_decide_ext.
           split; [by intros -> | by intros [= ->]].
        -- rewrite bool_decide_eq_false_2; [done|]. by intros [= -> ->].
Qed.

(** Inserting a word that is already present leaves the nested dicts as
    they are. *)
Lemma insert_node_present n (v : word) :
  has_word n v = true -> insert_node n v = n.
Proof.
  revert n. induction v as [|c rest IH]; intros [e its]; simpl.
  - by intros ->.
  - destruct (get_item c its) as [child|] eqn:Hget; [|done].
    intros Hhas. rewrite IH by done. by rewrite set_item_same.
Qed.

Lemma NoDup_node_words n : wf_node n -> NoDup (node_words n).
Proof.
  induction n as [e its IH] using node_rect_items. intros Hwf.
  inversion Hwf as [e' its' Hnd Hall]; subst. simpl.
  apply NoDup_app. split; [destruct e; [apply NoDup_singleton | apply NoDup_nil_2]|].
  split.
  - intros v Hv Hin. apply elem_of_flat_map in Hin as ([c child] & _ & Hin).
    simpl in Hin. apply list_elem_of_fmap in Hin as (rest & -> & _).
    destruct e; [by apply list_elem_of_singleton in Hv | by apply elem_of_nil in Hv].
  - clear Hwf. induction its as [|[c child] its IHits]; simpl; [apply NoDup_nil_2|].
    apply Forall_cons in IH as [IHc IH]. apply Forall_cons in Hall as [Hc Hall].
    simpl in Hnd. apply NoDup_cons in Hnd as [Hk Hnd].
    apply NoDup_app. split; [|split].
    + apply NoDup_fmap_2; [by intros ?? [=] | by apply IHc].
    + intros v Hv Hin. simpl in Hv.
      apply list_elem_of_fmap in Hv as (rest & -> & _).
      apply elem_of_flat_map in Hin as ([c' child'] & Hin' & Hin). simpl in Hin.
      apply list_elem_of_fmap in Hin as (rest' & [= <- <-] & _).
      apply Hk. apply list_elem_of_fmap. by exists (c, child').
    + by apply IHits.
Qed.

Lemma build_snoc ws (v : word) : build (ws ++ [v]) = insert (build ws) v.
Proof. unfold build. by rewrite foldl_app. Qed.

Lemma build_list ws : trie_list (build ws) = ws.
Proof.
  induction ws as [|v ws IH] using rev_ind; [done|].
  rewrite build_snoc. simpl. by rewrite IH.
Qed.

Lemma wf_build ws : wf_node (trie_root (build ws)).
Proof.
  induction ws as [|v ws IH] using rev_ind; [apply wf_empty_node|].
  rewrite build_snoc. simpl. by apply wf_insert_node.
Qed.

Lemma has_word_build ws (v : word) :
  has_word (trie_root (build ws)) v = true <-> v ∈ ws.
Proof.
  induction ws as [|u ws IH] using rev_ind.
  - simpl. rewrite has_word_empty_node. split; [done|].
    intros H. by apply elem_of_nil in H.
  - rewrite build_snoc. simpl. rewrite has_word_insert_node.
    rewrite orb_true_iff, bool_decide_eq_true, IH, elem_of_app, list_elem_of_singleton.
    tauto.
Qed.

Lemma elem_of_build ws (v : word) :
  v ∈ node_words (trie_root (build ws)) <-> v ∈ ws.
Proof. rewrite node_words_has_word by apply wf_build. apply has_word_build. Qed.

(** ** Candidate trie: [filter_words] *)

Lemma filter_flat_map {A B} (P : B -> Prop) `{!forall x, Decision (P x)}
      (f : A -> list B) (l : list A) :
  filter P (flat_map f l) = flat_map (fun a => filter P (f a)) l.
Proof.
  induction l as [|a l IH]; simpl; [done|]. by rewrite filter_app, IH.
Qed.

Lemma filter_map_cons {A B} (P : B -> Prop) `{!forall x, Decision (P x)}
      (f : A -> B) (l : list A) :
  filter P (map f l) = map f (filter (fun a => P (f a)) l).
Proof.
  induction l as [|a l IH]; simpl; [done|].
  rewrite !filter_cons. destruct (decide (P (f a))); simpl; by rewrite IH.
Qed.

Lemma flat_map_nonempty {A B} (f : A -> list B) (l : list A) :
  Forall (fun a => f a <> []) l -> (flat_map f l = [] <-> l = []).
Proof.
  intros Hall. split; [|by intros ->].
  destruct Hall as [|a l Ha _]; [done|]. simpl.
  intros Happ. apply app_eq_nil in Happ as [Hfa _]. done.
Qed.

Section filter_proofs.
Context (gray : gset ascii) (gray_pos green_pos : gmap nat ascii) (guess : word).

Local Abbreviation dfs_ok := (Trie.dfs_ok gray gray_pos green_pos guess).
Local Abbreviation dfs := (Trie.dfs gray gray_pos green_pos guess).
Local Abbreviation explore := (Trie.explore gray green_pos).
Local Abbreviation path_kept := (Trie.path_kept gray gray_pos green_pos guess).
Local Abbreviation kept_words := (Trie.kept_words gray gray_pos green_pos guess).
Local Abbreviation child_kept := (Trie.child_kept gray gray_pos green_pos guess).
Local Abbreviation pos_ok := (Trie.pos_ok gray_pos green_pos).
Local Abbreviation skip_gray := (Trie.skip_gray gray green_pos).

Lemma path_kept_pos_ok u y s : path_kept u y s = true -> pos_ok u = true.
Proof. destruct s; simpl; intros H; by apply andb_true_iff in H as [? _]. Qed.

Lemma kept_words_pos_fail cur u y : pos_ok u = false -> kept_words cur u y = [].
Proof.
  intros Hpos. unfold Trie.kept_words.
  induction (first_words cur) as [|s l IH]; [done|].
  rewrite filter_cons_False; [done|].
  intros Hk. apply path_kept_pos_ok in Hk. congruence.
Qed.

Lemma kept_words_eow its u y :
  kept_words (Node true its) u y = if path_kept u y [] then [[]] else [].
Proof.
  unfold Trie.kept_words. simpl first_words. rewrite filter_cons, filter_nil.
  destruct (path_kept u y []); by case_decide.
Qed.

Lemma kept_words_inner its u y :
  pos_ok u = true ->
  kept_words (Node false its) u y = flat_map (child_kept u y) its.
Proof.
  intros Hpos. unfold Trie.kept_words. simpl first_words.
  rewrite filter_flat_map. apply flat_map_ext. intros [c next].
  unfold Trie.child_kept. simpl.
  rewrite filter_map_cons. cbn [Trie.path_kept]. rewrite Hpos. simpl.
  destruct (skip_gray y c); simpl; [|done].
  induction (first_words next) as [|s l IHl]; [done|].
  by rewrite filter_cons_False.
Qed.

Lemma explore_spec u y its :
  Forall (fun kv => dfs_ok (snd kv)) its ->
  forall new_items valid acc, exists added,
    explore dfs u y its new_items valid acc =
      (valid || bool_decide (added <> []), Node false (new_items ++ added),
       acc ++ map (app u) (flat_map (child_kept u y) its))
    /\ flat_map (fun kv => map (cons (fst kv)) (node_words (snd kv))) added
       = flat_map (child_kept u y) its
    /\ flat_map (fun kv => map (cons (fst kv)) (first_words (snd kv))) added
       = flat_map (child_kept u y) its
    /\ Forall (fun kv => map (cons (fst kv)) (node_words (snd kv)) <> []) added.
Proof.
  induction 1 as [|[c next] its Hnext _ IH]; intros new_items valid acc;
    [|simpl in Hnext].
  - exists []. simpl. rewrite !app_nil_r, orb_false_r. by repeat split.
  - simpl. unfold Trie.child_kept at 1 3 5. simpl.
    destruct (skip_gray y c) eqn:Hskip; simpl; [apply IH|].
    destruct (Hnext (u ++ [c]) (Trie.updated_yellow y c) acc)
      as (n' & Hdfs & Hw & Hf & He).
    rewrite Hdfs. case_bool_decide as Hsel.
    + destruct (IH (new_items ++ [(c, n')]) true
                   (acc ++ map (app (u ++ [c]))
                               (kept_words next (u ++ [c]) (Trie.updated_yellow y c))))
        as (added & Hgo & Hw' & Hf' & Hne).
      exists ((c, n') :: added). rewrite Hgo. simpl.
      rewrite Hw, Hf, Hw', Hf', orb_true_r.
      split; [|split; [done|split; [done|]]].
      * f_equal; [f_equal; by rewrite <- app_assoc|].
        rewrite <- app_assoc, map_app, map_map. f_equal. f_equal.
        apply map_ext. intros s. by rewrite <- app_assoc.
      * constructor; [|done]. simpl. rewrite Hw.
        intros Hnil. by apply map_eq_nil in Hnil.
    + rewrite Hsel. simpl. rewrite app_nil_r.
      apply IH.
Qed.

Lemma dfs_spec cur : dfs_ok cur.
Proof.
  induction cur as [e its IH] using node_rect_items. intros u y acc.
  cbn [Trie.dfs].
  destruct (pos_ok u) eqn:Hpos.
  - unfold Trie.pos_ok in Hpos. apply andb_true_iff in Hpos as [Hg Hy].
    apply negb_true_iff in Hg, Hy. rewrite Hg, Hy.
    assert (pos_ok u = true) as Hpos
      by (unfold Trie.pos_ok; by rewrite Hg, Hy).
    destruct e.
    + rewrite kept_words_eow. cbn [Trie.path_kept]. rewrite Hpos. simpl.
      destruct (bool_decide (u = guess)); simpl;
        [exists empty_node; by rewrite app_nil_r|].
      destruct (Trie.yellow_check_fails y u); simpl;
        [exists empty_node; by rewrite app_nil_r|].
      exists (Node true []). by rewrite app_nil_r.
    + rewrite kept_words_inner by done.
      destruct (explore_spec u y its IH [] false acc)
        as (added & Hgo & Hw & Hf & Hne).
      exists (Node false added). rewrite Hgo. simpl.
      pose proof (flat_map_nonempty _ _ Hne) as Hnil. rewrite Hw in Hnil.
      split; [|split; [done|split; [done|]]].
      * f_equal. f_equal. apply bool_decide_ext. by rewrite Hnil.
      * intros Hk. apply Hnil in Hk. by subst.
  - rewrite kept_words_pos_fail by done.
    exists empty_node. rewrite app_nil_r. simpl.
    unfold Trie.pos_ok in Hpos. apply andb_false_iff in Hpos as [Hg | Hy].
    + apply negb_false_iff in Hg. by rewrite Hg.
    + apply negb_false_iff in Hy. rewrite Hy.
      by destruct (Trie.green_check_fails green_pos u).
Qed.

End filter_proofs.

(** *** The decisions along a path, in closed form *)

Lemma str_count_app (u v : word) c :
  str_count (u ++ v) c = (str_count u c + str_count v c)%nat.
Proof. apply count_occ_app. Qed.

Lemma str_count_cons (v : word) c x :
  str_count (x :: v) c = ((if bool_decide (x = c) then 1 else 0) + str_count v c)%nat.
Proof.
  unfold str_count. simpl. destruct (ascii_dec x c); case_bool_decide; done.
Qed.

Lemma str_count_pos (v : word) c : c ∈ v <-> (0 < str_count v c)%nat.
Proof. rewrite list_elem_of_In. apply count_occ_In. Qed.

Lemma yellow_get_updated y c c' :
  yellow_get (updated_yellow y c) c' =
  if bool_decide (c = c') then (yellow_get y c - 1)%nat else yellow_get y c'.
Proof.
  unfold updated_yellow, yellow_get.
  destruct (y !! c) as [k|] eqn:Hc.
  - destruct (0 <? k)%nat eqn:Hk.
    + case_bool_decide as Hcc; [subst; by rewrite lookup_insert_eq|].
      by rewrite lookup_insert_ne.
    + apply Nat.ltb_ge in Hk. case_bool_decide as Hcc; [|done].
      subst. rewrite Hc. simpl. lia.
  - case_bool_decide as Hcc; [|done]. subst. by rewrite Hc.
Qed.

Lemma yellow_check_passes y (u : word) :
  yellow_check_fails y u = false <->
  forall c, (yellow_get y c <= str_count u c)%nat.
Proof.
  unfold yellow_check_fails. split.
  - intros Hex c. unfold yellow_get. destruct (y !! c) as [k|] eqn:Hc; simpl; [|lia].
    destruct (decide (k <= str_count u c)%nat) as [|Hlt]; [done|]. exfalso.
    assert (existsb (fun kv => (0 <? snd kv)%nat &&
                               (str_count u (fst kv) <? snd kv)%nat)
                    (map_to_list y) = true) as Htrue; [|congruence].
    apply existsb_exists. exists (c, k). split.
    + apply list_elem_of_In. by apply elem_of_map_to_list.
    + simpl. apply andb_true_iff. split; apply Nat.ltb_lt; lia.
  - intros Hall. apply not_true_is_false. intros Hex.
    apply existsb_exists in Hex as ([c k] & Hin & Hk). simpl in Hk.
    apply list_elem_of_In, elem_of_map_to_list in Hin.
    apply andb_true_iff in Hk as [Hk1 Hk2].
    apply Nat.ltb_lt in Hk1, Hk2.
    specialize (Hall c). unfold yellow_get in Hall. rewrite Hin in Hall.
    simpl in Hall. lia.
Qed.

Lemma at_current_pos_snoc (d : gmap nat ascii) (u : word) c :
  at_current_pos d (u ++ [c]) = d !! length u.
Proof.
  unfold at_current_pos. rewrite length_app. simpl.
  destruct (Z.ltb_spec (Z.of_nat (length u + 1) - 1) 0) as [Hlt|_]; [lia|].
  f_equal. lia.
Qed.

Section path_kept_proofs.
Context (gray : gset ascii) (gray_pos green_pos : gmap nat ascii) (guess : word).

Local Abbreviation path_conditions := (Trie.path_conditions gray gray_pos green_pos guess).
Local Abbreviation path_kept := (Trie.path_kept gray gray_pos green_pos guess).
Local Abbreviation pos_ok := (Trie.pos_ok gray_pos green_pos).
Local Abbreviation skip_gray := (Trie.skip_gray gray green_pos).

Lemma pos_ok_nil : pos_ok [] = true.
Proof. reflexivity. Qed.

Lemma pos_ok_snoc (u : word) c :
  pos_ok (u ++ [c]) = true <->
  (forall g, green_pos !! length u = Some g -> c = g)
  /\ (forall g, gray_pos !! length u = Some g -> c <> g).
Proof.
  unfold Trie.pos_ok, green_check_fails, gray_check_fails.
  rewrite !at_current_pos_snoc, last_snoc.
  rewrite andb_true_iff, !negb_true_iff.
  destruct (green_pos !! length u) as [g|], (gray_pos !! length u) as [g'|];
    rewrite ?negb_false_iff, ?bool_decide_eq_true, ?bool_decide_eq_false;
    intuition (subst; eauto; congruence).
Qed.

Lemma skip_gray_false y c :
  skip_gray y c = false <->
  (c ∈ gray -> c ∉ green_values green_pos -> yellow_get y c <> 0%nat).
Proof.
  unfold Trie.skip_gray.
  rewrite !andb_false_iff, negb_false_iff, bool_decide_eq_false,
    bool_decide_eq_true, Nat.eqb_neq.
  destruct (decide (c ∈ gray)), (decide (c ∈ green_values green_pos)),
    (decide (yellow_get y c = 0%nat)); tauto.
Qed.

Lemma path_kept_conditions y0 (s u : word) y :
  (forall c, yellow_get y c = (yellow_get y0 c - str_count u c)%nat) ->
  path_kept u y s = true <-> pos_ok u = true /\ path_conditions y0 u s.
Proof.
  revert u y. induction s as [|c s IH]; intros u y Hinv; cbn [Trie.path_kept].
  - rewrite !andb_true_iff, !negb_true_iff, bool_decide_eq_false,
      yellow_check_passes.
    unfold path_conditions. rewrite app_nil_r.
    split.
    + intros (Hpos & Hg & Hy). split; [done|].
      split; [|split; [done|split]].
      * intros p x Hge Hx. apply lookup_lt_Some in Hx. lia.
      * intros c. rewrite <- Hinv. apply Hy.
      * intros c _ _ Hc. by apply elem_of_nil in Hc.
    + intros (Hpos & _ & Hg & Hy & _). repeat split; [done..|].
      intros c. rewrite Hinv. apply Hy.
  - rewrite !andb_true_iff, negb_true_iff, skip_gray_false.
    rewrite (IH (u ++ [c]) (updated_yellow y c)); cycle 1.
    { intros c'. rewrite yellow_get_updated, str_count_app, str_count_cons, !Hinv.
      change (str_count [] c') with 0%nat.
      case_bool_decide; subst; lia. }
    rewrite pos_ok_snoc. unfold path_conditions.
    rewrite <- !(app_assoc u [c] s). simpl.
    split.
    + intros (Hpos & Hskip & [Hgreen Hgray] & Hp & Hg & Hy & Hcap).
      split; [done|]. split; [|split; [done|split; [done|]]].
      * intros p x Hge Hx.
        destruct (decide (p = length u)) as [->|Hne].
        -- rewrite lookup_app_r, Nat.sub_diag in Hx by lia.
           simpl in Hx. injection Hx as <-. done.
        -- apply Hp; [|done]. rewrite length_app. simpl. lia.
      * intros c' Hc'g Hc'v Hin.
        destruct (decide (c' ∈ s)) as [Hs|Hs]; [by apply Hcap|].
        apply elem_of_cons in Hin as [->|]; [|done].
        specialize (Hskip Hc'g Hc'v). rewrite Hinv in Hskip.
        rewrite str_count_app, str_count_cons, bool_decide_eq_true_2 by done.
        assert (str_count s c = 0%nat)
          by (destruct (str_count s c) eqn:E; [done|];
              exfalso; apply Hs, str_count_pos; lia).
        lia.
    + intros (Hpos & Hp & Hg & Hy & Hcap).
      split; [done|]. split; [|split; [|split; [|split; [done|split; [done|]]]]].
      * intros Hcg Hcv. rewrite Hinv.
        specialize (Hcap c Hcg Hcv (list_elem_of_here _ _)).
        rewrite str_count_app, str_count_cons, bool_decide_eq_true_2 in Hcap by done.
        lia.
      * split; intros g Hgp;
          (destruct (Hp (length u) c) as [H1 H2];
           [lia | by rewrite lookup_app_r, Nat.sub_diag by lia |]); auto.
      * intros p x Hge Hx. apply Hp; [|done].
        rewrite length_app in Hge. simpl in Hge. lia.
      * intros c' Hc'g Hc'v Hin. apply Hcap; [done..|].
        by apply list_elem_of_further.
Qed.

(** The filter [dfs] applies to a whole word of the trie. *)
Lemma path_kept_root y (v : word) :
  path_kept [] y v = true <->
  green_ok green_pos v /\ gray_pos_ok gray_pos v /\ v <> guess
  /\ (forall c, (yellow_get y c <= 2 * str_count v c)%nat)
  /\ gray_capped gray green_pos y v.
Proof.
  rewrite (path_kept_conditions y) by (intros c; simpl; lia).
  unfold path_conditions, green_ok, gray_pos_ok, gray_capped. simpl.
  split.
  - intros (_ & Hp & Hg & Hy & Hcap). repeat split.
    + intros p g Hgp Hlt.
      destruct (lookup_lt_is_Some_2 v p Hlt) as [x Hx].
      destruct (Hp p x ltac:(lia) Hx) as [H1 _]. by rewrite (H1 g Hgp) in Hx.
    + intros p g Hgp Hx. destruct (Hp p g ltac:(lia) Hx) as [_ H2].
      by apply (H2 g).
    + done.
    + intros c. specialize (Hy c). lia.
    + intros c Hcg Hcv. destruct (decide (c ∈ v)) as [Hin|Hin]; [by apply Hcap|].
      destruct (str_count v c) eqn:E; [lia|].
      exfalso. apply Hin, str_count_pos. lia.
  - intros (Hgreen & Hgray & Hg & Hy & Hcap). split; [done|].
    split; [|split; [done|split]].
    + intros p x _ Hx. split.
      * intros g Hgp. specialize (Hgreen p g Hgp (lookup_lt_Some _ _ _ Hx)).
        congruence.
      * intros g Hgp ->. by apply (Hgray p g).
    + intros c. specialize (Hy c). lia.
    + intros c Hcg Hcv _. by apply Hcap.
Qed.

End path_kept_proofs.

(** *** Stopping at the first mark loses nothing on equal-length words *)

Lemma uniform_child L e its c child :
  uniform L (Node e its) -> (c, child) ∈ its -> uniform (L - 1) child.
Proof.
  intros Hu Hin v Hv.
  assert (length (c :: v) = L) as Hlen; [|simpl in Hlen; lia].
  apply Hu, elem_of_node_words. right. by exists c, child, v.
Qed.

Lemma first_words_uniform L n : uniform L n -> first_words n = node_words n.
Proof.
  revert L. induction n as [e its IH] using node_rect_items. intros L Hu.
  simpl. destruct e.
  - assert (L = 0%nat) as ->.
    { symmetry. apply (Hu []), elem_of_node_words. by left. }
    simpl. f_equal. symmetry. apply elem_of_nil_inv. intros v Hv.
    assert (length v = 0%nat) as Hlen.
    { apply Hu. simpl. by apply list_elem_of_further. }
    apply elem_of_flat_map in Hv as ([c child] & _ & Hv). simpl in Hv.
    apply list_elem_of_fmap in Hv as (rest & -> & _). done.
  - simpl. assert (forall c child, (c, child) ∈ its -> uniform (L - 1) child)
      as Hch by (intros c child; by eapply uniform_child).
    clear Hu. induction IH as [|[c child] its Hc _ IHits]; simpl; [done|].
    f_equal.
    + f_equal. apply (Hc (L - 1)%nat), (Hch c), list_elem_of_here.
    + apply IHits. intros c' child' Hin. apply (Hch c'). by apply list_elem_of_further.
Qed.

Lemma first_words_sublist n : first_words n `sublist_of` node_words n.
Proof.
  induction n as [e its IH] using node_rect_items. simpl. destruct e.
  - by apply sublist_inserts_r.
  - simpl. induction IH as [|[c child] its Hc _ IHits]; simpl; [done|].
    apply sublist_app; [by apply (fmap_sublist (cons c)) | done].
Qed.

(** *** The filtered trie *)

Section filter_claims.
Context (gray : gset ascii) (gray_pos : gmap nat ascii)
        (yellow : gmap ascii nat) (green_pos : gmap nat ascii) (guess : word).

Local Abbreviation filter_words :=
  (fun self => Trie.filter_words gray gray_pos green_pos guess self yellow).
Local Abbreviation dfs := (Trie.dfs gray gray_pos green_pos guess).
Local Abbreviation explore := (Trie.explore gray green_pos).
Local Abbreviation kept_words := (Trie.kept_words gray gray_pos green_pos guess).
Local Abbreviation path_kept := (Trie.path_kept gray gray_pos green_pos guess).

(** The list and the nested dicts of the result, from the source. *)
Lemma filter_words_kept (T : Trie.t) :
  trie_list (filter_words T) = kept_words (trie_root T) [] yellow
  /\ node_words (trie_root (filter_words T)) = kept_words (trie_root T) [] yellow
  /\ first_words (trie_root (filter_words T)) = kept_words (trie_root T) [] yellow.
Proof.
  unfold Trie.filter_words.
  destruct (dfs_spec gray gray_pos green_pos guess (trie_root T) [] yellow [])
    as (n' & Hdfs & Hw & Hf & _).
  rewrite Hdfs. simpl. rewrite map_id. done.
Qed.

Lemma elem_of_kept_words cur u y (s : word) :
  s ∈ kept_words cur u y <-> path_kept u y s = true /\ s ∈ first_words cur.
Proof. unfold Trie.kept_words. by rewrite list_elem_of_filter. Qed.

(** The exact word set of the result on a trie of equal-length words. *)
Lemma filter_words_exact (T : Trie.t) L (v : word) :
  uniform L (trie_root T) ->
  v ∈ trie_list (filter_words T) <->
  v ∈ node_words (trie_root T)
  /\ green_ok green_pos v /\ gray_pos_ok gray_pos v /\ v <> guess
  /\ (forall c, (yellow_get yellow c <= 2 * str_count v c)%nat)
  /\ gray_capped gray green_pos yellow v.
Proof.
  intros Hu. destruct (filter_words_kept T) as (-> & _ & _).
  rewrite elem_of_kept_words, (first_words_uniform L), path_kept_root by done.
  tauto.
Qed.

End filter_claims.

(** *** Filtering a filtered trie *)

Section filter_stable.
Context (gray : gset ascii) (gray_pos green_pos : gmap nat ascii) (guess : word).

Local Abbreviation stable := (Trie.stable gray gray_pos green_pos guess).
Local Abbreviation stable_entry := (Trie.stable_entry gray gray_pos green_pos guess).
Local Abbreviation dfs := (Trie.dfs gray gray_pos green_pos guess).
Local Abbreviation explore := (Trie.explore gray green_pos).
Local Abbreviation skip_gray := (Trie.skip_gray gray green_pos).

Lemma explore_added u y its :
  Forall (fun kv => forall u y acc n' acc',
              dfs (snd kv) u y acc = (true, n', acc') -> stable u y n') its ->
  forall new_items valid acc b n acc',
    explore dfs u y its new_items valid acc = (b, n, acc') ->
    exists added,
      n = Node false (new_items ++ added)
      /\ b = valid || bool_decide (added <> [])
      /\ Forall (stable_entry u y) added.
Proof.
  induction 1 as [|[c next] its Hnext _ IH]; intros new_items valid acc b n acc';
    simpl.
  - intros [= <- <- <-]. exists []. by rewrite app_nil_r, orb_false_r.
  - destruct (skip_gray y c) eqn:Hskip; [apply IH|].
    destruct (dfs next (u ++ [c]) (updated_yellow y c) acc)
      as [[ok new_child] acc1] eqn:Hdfs.
    destruct ok; [|apply IH].
    intros Hgo. apply IH in Hgo as (added & -> & -> & Hall).
    exists ((c, new_child) :: added). rewrite <- app_assoc. simpl.
    split; [done|]. split; [by rewrite orb_true_r|].
    constructor; [|done]. split; [done|]. simpl.
    by apply (Hnext _ _ _ _ _ Hdfs).
Qed.

Lemma explore_replay u y added :
  Forall (stable_entry u y) added ->
  forall new_items valid acc,
    explore dfs u y added new_items valid acc =
      (valid || bool_decide (added <> []), Node false (new_items ++ added),
       acc ++ map (app u)
                  (flat_map (fun kv => map (cons (fst kv)) (node_words (snd kv)))
                            added)).
Proof.
  induction 1 as [|[c child] added [Hskip Hst] _ IH]; intros new_items valid acc;
    simpl in *.
  - by rewrite !app_nil_r, orb_false_r.
  - rewrite Hskip, Hst, IH, orb_true_r, <- !app_assoc. simpl.
    f_equal. f_equal. rewrite map_app, map_map. f_equal.
    apply map_ext. intros s. by rewrite <- app_assoc.
Qed.

Lemma dfs_stable cur :
  forall u y acc n' acc', dfs cur u y acc = (true, n', acc') -> stable u y n'.
Proof.
  induction cur as [e its IH] using node_rect_items.
  intros u y acc n' acc'. cbn [Trie.dfs].
  destruct (green_check_fails green_pos u) eqn:Hg; [done|].
  destruct (gray_check_fails gray_pos u) eqn:Hy; [done|].
  destruct e.
  - destruct (bool_decide (u = guess)) eqn:Hu; [done|].
    destruct (yellow_check_fails y u) eqn:Hyc; [done|].
    intros [= <- <-] acc2. cbn [Trie.dfs].
    rewrite Hg, Hy, Hu, Hyc. simpl. by rewrite app_nil_r.
  - intros Hgo. apply (explore_added u y its IH) in Hgo as (added & -> & Hb & Hall).
    simpl in *. intros acc2. cbn [Trie.dfs]. rewrite Hg, Hy.
    rewrite (explore_replay u y added Hall). simpl. by rewrite <- Hb.
Qed.

(** [filter(filter(T, c), c) == filter(T, c)], nested dicts and list
    alike. *)
Lemma filter_words_fixed (T : Trie.t) yellow :
  Trie.filter_words gray gray_pos green_pos guess
    (Trie.filter_words gray gray_pos green_pos guess T yellow) yellow
  = Trie.filter_words gray gray_pos green_pos guess T yellow.
Proof.
  unfold Trie.filter_words at 2 3.
  destruct (dfs_spec gray gray_pos green_pos guess (trie_root T) [] yellow [])
    as (n' & Hdfs & Hw & Hf & He).
  destruct (dfs (trie_root T) [] yellow []) as [[b n] l] eqn:Hrun.
  injection Hdfs as -> -> ->. rewrite <- Hw in *. simpl. rewrite map_id.
  unfold Trie.filter_words. simpl.
  case_bool_decide as Hne.
  - rewrite (dfs_stable _ _ _ _ _ _ Hrun []). simpl. by rewrite map_id.
  - rewrite Hne in *. rewrite (He eq_refl). done.
Qed.

End filter_stable.

(** ** Candidate trie: the contract *)

(** C6, as the code has it: the nested dicts built from a word list
    spell exactly the distinct words of the list, each once, and
    inserting a word that is already there leaves them unchanged; the
    [list] attribute is the log of all insertions, repeats included. *)
Theorem build_roundtrip (ws : list word) :
  (forall v : word, v ∈ node_words (trie_root (build ws)) <-> v ∈ ws)
  /\ NoDup (node_words (trie_root (build ws)))
  /\ (forall v : word, v ∈ ws ->
        trie_root (insert (build ws) v) = trie_root (build ws))
  /\ trie_list (build ws) = ws
  /\ (forall v : word, trie_list (insert (build ws) v) = ws ++ [v]).
Proof.
  split; [apply elem_of_build|].
  split; [apply NoDup_node_words, wf_build|].
  split; [|split; [apply build_list|]].
  - intros v Hv. simpl. apply insert_node_present. by apply has_word_build.
  - intros v. simpl. by rewrite build_list.
Qed.

(** C6 as stated fails on the [list] attribute: a word inserted twice
    is listed twice, and the second insertion changes the trie. *)
Lemma insert_twice_listed_twice :
  trie_list (build [w "apple"; w "apple"]) = [w "apple"; w "apple"]
  /\ ~ NoDup (trie_list (build [w "apple"; w "apple"]))
  /\ insert (insert empty (w "apple")) (w "apple") <> insert empty (w "apple").
Proof.
  split; [reflexivity|]. split; [|discriminate].
  intros Hnd. apply NoDup_cons in Hnd as [Hnotin _].
  apply Hnotin. apply list_elem_of_here.
Qed.

(** C1, as the code has it. On a trie of equal-length words the result
    (its list and its nested dicts alike) holds only words of the
    source that meet the green and gray position conditions, differ
    from the guess, contain every letter with a positive yellow count,
    and contain a gray letter that is no green letter at most as often
    as its yellow count; and it holds every word of the source that
    meets these conditions and has each yellow letter at least its
    required number of times. *)
Theorem filter_words_keeps
    (T : Trie.t) (L : nat) (gray : gset ascii) (gray_pos : gmap nat ascii)
    (yellow : gmap ascii nat) (green_pos : gmap nat ascii) (guess : word) :
  uniform L (trie_root T) ->
  trie_list (filter_words gray gray_pos green_pos guess T yellow)
  = node_words (trie_root (filter_words gray gray_pos green_pos guess T yellow))
  /\ (forall v : word,
        v ∈ trie_list (filter_words gray gray_pos green_pos guess T yellow) ->
        v ∈ node_words (trie_root T)
        /\ green_ok green_pos v /\ gray_pos_ok gray_pos v
        /\ yellow_present yellow v /\ gray_capped gray green_pos yellow v
        /\ v <> guess)
  /\ (forall v : word,
        v ∈ node_words (trie_root T) ->
        green_ok green_pos v -> gray_pos_ok gray_pos v ->
        yellow_ok yellow v -> gray_capped gray green_pos yellow v ->
        v <> guess ->
        v ∈ trie_list (filter_words gray gray_pos green_pos guess T yellow)).
Proof.
  intros Hu. split; [|split].
  - destruct (filter_words_kept gray gray_pos yellow green_pos guess T)
      as (-> & -> & _). done.
  - intros v Hv. apply (filter_words_exact _ _ _ _ _ _ L) in Hv; [|done].
    destruct Hv as (Hin & Hgreen & Hgray & Hne & Hy & Hcap).
    repeat split; try done.
    intros c k Hc Hk. apply str_count_pos.
    specialize (Hy c). unfold yellow_get in Hy. rewrite Hc in Hy. simpl in Hy. lia.
  - intros v Hin Hgreen Hgray Hy Hcap Hne.
    apply (filter_words_exact _ _ _ _ _ _ L); [done|].
    repeat split; try done.
    intros c. unfold yellow_get. destruct (yellow !! c) as [k|] eqn:Hc; simpl; [|lia].
    destruct k as [|k]; [lia|]. specialize (Hy c (S k) Hc). lia.
Qed.

Lemma uniform_ex_dict : uniform 5 (trie_root (build ex_dict)).
Proof.
  intros v Hv. apply elem_of_build in Hv.
  unfold ex_dict in Hv. simpl in Hv.
  repeat (apply elem_of_cons in Hv as [->|Hv]; [reflexivity|]).
  by apply elem_of_nil in Hv.
Qed.

Lemma filter_words_keeps_witness :
  uniform 5 (trie_root (build ex_dict))
  /\ trie_list (filter_words ex_gray_p ex_gray_pos_p ex_green_a (w "apple")
                             (build ex_dict) ∅)
     = node_words (trie_root (filter_words ex_gray_p ex_gray_pos_p ex_green_a
                                           (w "apple") (build ex_dict) ∅)).
Proof.
  split; [exact uniform_ex_dict|].
  apply (filter_words_keeps (build ex_dict) 5 ex_gray_p ex_gray_pos_p ∅
                            ex_green_a (w "apple") uniform_ex_dict).
Defined.

(** The scenario of the specification: after the guess [apple] with
    [a] exact and both [p] absent, the candidates lose [apple] and have
    no [p]. *)
Lemma filter_words_apple_scenario :
  trie_list (filter_words ex_gray_p ex_gray_pos_p ex_green_a (w "apple")
                          (build ex_dict) ∅)
  = map w ["angle"; "ankle"; "axles"; "agile"]%string.
Proof. vm_compute. reflexivity. Qed.

(** C1 as stated fails: with [a] gray and one [a] yellow, the word
    [aabcd] meets the five conditions of the contract, yet the filter
    drops it, because a gray letter is cut off once its yellow count is
    used up on the path. *)
Lemma filter_words_caps_gray_letter :
  w "aabcd" ∈ node_words (trie_root ex_repeat_trie)
  /\ contract_keeps ex_gray_a ∅ ∅ (w "zzzzz") ex_yellow_a1 (w "aabcd")
  /\ trie_list (filter_words ex_gray_a ∅ ∅ (w "zzzzz") ex_repeat_trie ex_yellow_a1)
     = [].
Proof.
  split; [apply list_elem_of_here|]. split; [|vm_compute; reflexivity].
  unfold contract_keeps. split; [|split; [|split; [|split]]].
  - intros p g Hp. by rewrite lookup_empty in Hp.
  - intros p g Hp. by rewrite lookup_empty in Hp.
  - intros c k Hc Hk. unfold ex_yellow_a1 in Hc.
    apply lookup_singleton_Some in Hc as [<- <-]. vm_compute. lia.
  - intros c _ Hc Hy _. unfold ex_gray_a in Hc.
    apply elem_of_singleton in Hc as ->. apply Hy. vm_compute. lia.
  - discriminate.
Qed.

(** The yellow test at a found word compares the word's letter count
    with what is left of the required count after the decrements on the
    path: a word with one [e] passes a required count of two. *)
Lemma filter_words_yellow_count_halved :
  str_count (w "abcde") "e"%char = 1%nat
  /\ trie_list (filter_words ∅ ∅ ∅ (w "zzzzz") (build [w "abcde"]) ex_yellow_e2)
     = [w "abcde"].
Proof. split; vm_compute; reflexivity. Qed.

(** C5: the word set of the result is included in the source's, so has
    at most its cardinality, as sets and as lists; and filtering the
    result again with the same arguments gives the same trie. *)
Theorem filter_words_monotone_idempotent
    (T : Trie.t) (gray : gset ascii) (gray_pos : gmap nat ascii)
    (yellow : gmap ascii nat) (green_pos : gmap nat ascii) (guess : word) :
  word_set (filter_words gray gray_pos green_pos guess T yellow) ⊆ word_set T
  /\ (size (word_set (filter_words gray gray_pos green_pos guess T yellow))
      <= size (word_set T))%nat
  /\ (length (trie_list (filter_words gray gray_pos green_pos guess T yellow))
      <= length (node_words (trie_root T)))%nat
  /\ filter_words gray gray_pos green_pos guess
       (filter_words gray gray_pos green_pos guess T yellow) yellow
     = filter_words gray gray_pos green_pos guess T yellow.
Proof.
  destruct (filter_words_kept gray gray_pos yellow green_pos guess T)
    as (Hl & Hw & _).
  assert (kept_words gray gray_pos green_pos guess (trie_root T) [] yellow
          `sublist_of` node_words (trie_root T)) as Hsub.
  { unfold kept_words. etrans; [apply sublist_filter|apply first_words_sublist]. }
  assert (word_set (filter_words gray gray_pos green_pos guess T yellow)
          ⊆ word_set T) as Hincl.
  { unfold word_set. rewrite Hw. intros v.
    rewrite !elem_of_list_to_set. intros Hv. by eapply elem_of_sublist. }
  split; [done|]. split; [by apply subseteq_size|].
  split; [rewrite Hl; by apply sublist_length|].
  apply filter_words_fixed.
Qed.

(** ** The trie in the store *)

Import Heap.

Lemma Forall2_Forall_r_impl {A B} (P Q : A -> B -> Prop) (R : B -> Prop) l k :
  Forall2 P l k -> Forall R k ->
  (forall x y, R y -> P x y -> Q x y) -> Forall2 Q l k.
Proof.
  intros HP HR Himp. induction HP as [|x y l k Hxy _ IH]; [constructor|].
  apply Forall_cons in HR as [Hy HR]. constructor; auto.
Qed.

Lemma repr_inv h lo hi l e its :
  repr h lo hi l (Node e its) ->
  exists kids, h !! l = Some (DictObj e kids)
               /\ Forall2 (child_rel h lo hi) kids its.
Proof. inversion 1; subst. by exists kids. Qed.

Lemma repr_intro h lo hi l e kids its :
  h !! l = Some (DictObj e kids) -> Forall2 (child_rel h lo hi) kids its ->
  repr h lo hi l (Node e its).
Proof. intros Hl Hkids. by econstructor. Qed.

(** The representation only reads the dicts it names. *)
Lemma repr_frame n : forall (h h' : heap) lo hi lo' hi' l,
  repr h lo hi l n ->
  h' !! l = h !! l ->
  (forall l', (lo <= l' < hi)%nat -> h' !! l' = h !! l') ->
  (lo' <= lo)%nat -> (hi <= hi')%nat ->
  repr h' lo' hi' l n.
Proof.
  induction n as [e its IH] using node_rect_items.
  intros h h' lo hi lo' hi' l Hrep Hl Hagree Hlo Hhi.
  apply repr_inv in Hrep as (kids & Hkids & Hall).
  apply (repr_intro _ _ _ _ _ kids); [by rewrite Hl|].
  apply (Forall2_Forall_r_impl _ _ _ _ _ Hall IH).
  intros [c lc] [c' n'] IHn (Hc & Hrange & Hrep). simpl in *.
  red. simpl. split; [done|]. split; [lia|].
  apply (IHn h h' lo hi); auto.
Qed.

Lemma child_rel_frame (h h' : heap) lo hi lo' hi' kids its :
  Forall2 (child_rel h lo hi) kids its ->
  (forall l', (lo <= l' < hi)%nat -> h' !! l' = h !! l') ->
  (lo' <= lo)%nat -> (hi <= hi')%nat ->
  Forall2 (child_rel h' lo' hi') kids its.
Proof.
  intros Hall Hagree Hlo Hhi. eapply Forall2_impl; [exact Hall|].
  intros [c lc] [c' n'] (Hc & Hrange & Hrep). simpl in *.
  red. simpl. split; [done|]. split; [lia|].
  apply (repr_frame n' h h' lo hi); auto.
Qed.

Lemma lookup_alloc (h : heap) o : (h ++ [o]) !! length h = Some o.
Proof. by rewrite lookup_app_r, Nat.sub_diag by lia. Qed.

Lemma lookup_alloc_old (h : heap) o l :
  (l < length h)%nat -> (h ++ [o]) !! l = h !! l.
Proof. intros Hl. by rewrite lookup_app_l. Qed.

Lemma depth_child e its c child :
  (c, child) ∈ its -> (depth child < depth (Node e its))%nat.
Proof.
  simpl. induction its as [|kv its IH]; intros Hin; [by apply elem_of_nil in Hin|].
  apply elem_of_cons in Hin as [<-|Hin]; simpl; [lia|].
  specialize (IH Hin). lia.
Qed.

Section heap_proofs.
Context (gray : gset ascii) (gray_pos green_pos : gmap nat ascii) (guess : word).

Local Abbreviation hdfs := (Heap.dfs gray gray_pos green_pos guess).
Local Abbreviation hexplore := (Heap.explore gray green_pos).
Local Abbreviation mdfs := (Trie.dfs gray gray_pos green_pos guess).
Local Abbreviation mexplore := (Trie.explore gray green_pos).
Local Abbreviation refines := (dfs_refines gray gray_pos green_pos guess).

Lemma explore_refines fuel u y nn nl B its :
  Forall (fun kv => refines (snd kv)) its ->
  Forall (fun kv => (depth (snd kv) <= fuel)%nat) its ->
  forall kids (h : heap) valid new_items new_kids lst L0 b n' lst',
    mexplore mdfs u y its new_items valid lst = (b, n', lst') ->
    Forall2 (child_rel h 0 B) kids its ->
    (B <= nn)%nat -> (B <= nl)%nat -> nn <> nl ->
    (nn < L0)%nat -> (nl < L0)%nat -> (L0 <= length h)%nat ->
    h !! nn = Some (DictObj false new_kids) ->
    Forall2 (child_rel h L0 (length h)) new_kids new_items ->
    h !! nl = Some (ListObj lst) ->
    exists (h' : heap) new_kids' new_items',
      n' = Node false new_items'
      /\ hexplore (hdfs fuel) u y nn nl kids valid h = Some (b, h')
      /\ (length h <= length h')%nat
      /\ unchanged_except nn nl h h'
      /\ h' !! nl = Some (ListObj lst')
      /\ h' !! nn = Some (DictObj false new_kids')
      /\ Forall2 (child_rel h' L0 (length h')) new_kids' new_items'.
Proof.
  intros IH Hdepth. induction its as [|[c tc] its IHits];
    intros kids h valid new_items new_kids lst L0 b n' lst'
           Hrun Hsrc HBnn HBnl Hne HnnL HnlL HL Hnn Hnew Hnl.
  - apply Forall2_nil_inv_r in Hsrc as ->. simpl in *.
    injection Hrun as <- <- <-. exists h, new_kids, new_items.
    repeat split; done.
  - apply Forall2_cons_inv_r in Hsrc
      as ([c' lc] & kids' & (Hc & Hrange & Hrep) & Hsrc & ->).
    simpl in Hc, Hrange, Hrep. subst c'.
    apply Forall_cons in IH as [IHc IH].
    apply Forall_cons in Hdepth as [Hdc Hdepth]. simpl in IHc, Hdc.
    specialize (IHits IH Hdepth).
    cbn [Trie.explore Heap.explore] in *.
    destruct (skip_gray gray green_pos y c);
      [by apply (IHits kids' h valid new_items new_kids lst L0)|].
    destruct (mdfs tc (u ++ [c]) (updated_yellow y c) lst)
      as [[bc nc] lstc] eqn:Hchild.
    unfold alloc.
    destruct (IHc fuel (h ++ [DictObj false []]) lc (u ++ [c])
                  (updated_yellow y c) (length h) nl lst B bc nc lstc)
      as (h2 & Hdfs & Hlen2 & Hun2 & Hnl2 & Hrep2); try done; try lia.
    { apply (repr_frame tc h _ 0 B); try done; try lia.
      - apply lookup_alloc_old. lia.
      - intros l' Hl'. apply lookup_alloc_old. lia. }
    { apply lookup_alloc. }
    { rewrite lookup_alloc_old by lia. done. }
    rewrite Hdfs. rewrite length_app in Hlen2, Hrep2. simpl in *.
    unfold unchanged_except in *.
    assert (forall l, (l < length h)%nat -> l <> nl -> h2 !! l = h !! l) as Hold.
    { intros l Hl Hlnl.
      rewrite Hun2; [by apply lookup_alloc_old | rewrite length_app; simpl; lia
                    | lia | done]. }
    destruct bc.
    + unfold set_child. rewrite (Hold nn) by lia. rewrite Hnn.
      set (h3 := <[nn := DictObj false (new_kids ++ [(c, length h)])]> h2).
      assert (length h3 = length h2) as Hlen3 by apply length_insert.
      assert (forall l, l <> nn -> h3 !! l = h2 !! l) as H32
          by (intros l Hl; by apply list_lookup_insert_ne).
      destruct (IHits kids' h3 true (new_items ++ [(c, nc)])
                      (new_kids ++ [(c, length h)]) lstc L0 b n' lst')
        as (h' & nk' & ni' & Hn' & Hgo & Hlen' & Hun' & Hnl' & Hnn' & Hnew');
        try done; try lia.
      { apply (child_rel_frame h _ 0 B); try done; try lia.
        intros l' Hl'. rewrite H32, Hold by lia. done. }
      { apply list_lookup_insert_eq. lia. }
      { apply Forall2_app.
        - apply (child_rel_frame h _ L0 (length h)); try done; try lia.
          intros l' Hl'. rewrite H32, Hold by lia. done.
        - constructor; [|constructor]. red. simpl. split; [done|]. split; [lia|].
          apply (repr_frame nc h2 _ (length h + 1) (length h2)); try done; try lia.
          + apply H32. lia.
          + intros l' Hl'. apply H32. lia. }
      { rewrite H32 by done. done. }
      exists h', nk', ni'. repeat split; try done; try lia.
      intros l Hl Hlnn Hlnl. rewrite Hun', H32, Hold by lia. done.
    + destruct (IHits kids' h2 valid new_items new_kids lstc L0 b n' lst')
        as (h' & nk' & ni' & Hn' & Hgo & Hlen' & Hun' & Hnl' & Hnn' & Hnew');
        try done; try lia.
      { apply (child_rel_frame h _ 0 B); try done; try lia.
        intros l' Hl'. rewrite Hold by lia. done. }
      { rewrite Hold by lia. done. }
      { apply (child_rel_frame h _ L0 (length h)); try done; try lia.
        intros l' Hl'. rewrite Hold by lia. done. }
      exists h', nk', ni'. repeat split; try done; try lia.
      intros l Hl Hlnn Hlnl. rewrite Hun', Hold by lia. done.
Qed.

Lemma dfs_refines_all t : refines t.
Proof.
  induction t as [e its IH] using node_rect_items.
  intros fuel h cur u y nn nl lst B b n' lst' Hrun Hfuel Hrep HBnn HBnl Hne Hnn Hnl.
  destruct fuel as [|fuel]; [simpl in Hfuel; lia|].
  apply repr_inv in Hrep as (kids & Hcur & Hsrc).
  pose proof (lookup_lt_Some _ _ _ Hnn) as Hnnlt.
  pose proof (lookup_lt_Some _ _ _ Hnl) as Hnllt.
  assert (repr h (length h) (length h) nn empty_node) as Hempty
    by (apply (repr_intro _ _ _ _ _ []); [done | constructor]).
  assert (unchanged_except nn nl h h) as Hsame by (by intros l _ _ _).
  cbn [Trie.dfs Heap.dfs] in *. rewrite Hcur.
  destruct (green_check_fails green_pos u);
    [injection Hrun as <- <- <-; by exists h|].
  destruct (gray_check_fails gray_pos u);
    [injection Hrun as <- <- <-; by exists h|].
  destruct e.
  - destruct (bool_decide (u = guess));
      [injection Hrun as <- <- <-; by exists h|].
    destruct (yellow_check_fails y u);
      [injection Hrun as <- <- <-; by exists h|].
    injection Hrun as <- <- <-.
    unfold set_eow, list_append. rewrite Hnn.
    rewrite list_lookup_insert_ne, Hnl by done.
    eexists. split; [done|]. rewrite !length_insert.
    split; [done|]. split; [|split].
    + intros l Hl Hlnn Hlnl. by rewrite !list_lookup_insert_ne.
    + apply list_lookup_insert_eq. by rewrite length_insert.
    + apply (repr_intro _ _ _ _ _ []); [|constructor].
      rewrite list_lookup_insert_ne by done. by apply list_lookup_insert_eq.
  - destruct (explore_refines fuel u y nn nl B its IH) with
        (kids := kids) (h := h) (valid := false) (new_items := @nil (ascii * node))
        (new_kids := @nil (ascii * nat)) (lst := lst) (L0 := length h)
        (b := b) (n' := n') (lst' := lst')
      as (h' & nk' & ni' & -> & Hgo & Hlen' & Hun' & Hnl' & Hnn' & Hnew');
      try done; try lia.
    { apply Forall_forall. intros [c child] Hin. simpl.
      pose proof (depth_child false its c child Hin). lia. }
    exists h'. repeat split; try done.
    by apply (repr_intro _ _ _ _ _ nk').
Qed.

End heap_proofs.

(** C9: a call of [filter_words] on a store that holds the source trie
    returns, given enough nested calls; every object that was in the
    store is the same afterwards, so the source holds the same nested
    dicts and the same list; and the returned trie, which is the one
    of the model, is made of objects that were not there before. *)
Theorem filter_words_leaves_source
    (gray : gset ascii) (gray_pos : gmap nat ascii) (yellow : gmap ascii nat)
    (green_pos : gmap nat ascii) (guess : word)
    (h : heap) (self : trie_ref) (t : Trie.node) (ws : list word) (fuel : nat) :
  repr h 0 (length h) (tr_root self) t ->
  h !! tr_list self = Some (ListObj ws) ->
  (depth t <= fuel)%nat ->
  exists (new_trie : trie_ref) (h' : heap),
    Heap.filter_words gray gray_pos green_pos guess fuel h self yellow
    = Some (new_trie, h')
    /\ (forall l, (l < length h)%nat -> h' !! l = h !! l)
    /\ repr h' 0 (length h) (tr_root self) t
    /\ h' !! tr_list self = Some (ListObj ws)
    /\ (length h <= tr_root new_trie < length h')%nat
    /\ (length h <= tr_list new_trie < length h')%nat
    /\ repr h' (length h) (length h') (tr_root new_trie)
            (trie_root (Trie.filter_words gray gray_pos green_pos guess
                                          (Trie.mk t ws) yellow))
    /\ h' !! tr_list new_trie
       = Some (ListObj (trie_list (Trie.filter_words gray gray_pos green_pos guess
                                                     (Trie.mk t ws) yellow))).
Proof.
  intros Hrep Hlist Hfuel.
  unfold Heap.filter_words, Trie.filter_words, alloc. simpl.
  destruct (Trie.dfs gray gray_pos green_pos guess t [] yellow [])
    as [[b n'] lst'] eqn:Hrun.
  set (h2 := (h ++ [DictObj false []]) ++ [ListObj []]).
  assert (length h2 = (length h + 2)%nat) as Hlen2
    by (unfold h2; rewrite !length_app; simpl; lia).
  assert (forall l, (l < length h)%nat -> h2 !! l = h !! l) as Hold.
  { intros l Hl. unfold h2. rewrite lookup_app_l by (rewrite length_app; lia).
    by apply lookup_alloc_old. }
  rewrite length_app. simpl.
  destruct (dfs_refines_all gray gray_pos green_pos guess t fuel h2
              (tr_root self) [] yellow (length h) (length h + 1)%nat
              [] (length h) b n' lst' Hrun Hfuel)
    as (h' & Hdfs & Hlen' & Hun' & Hnl' & Hrep'); try lia.
  { apply (repr_frame t h _ 0 (length h)); try done.
    - apply Hold. inversion Hrep; subst. by eapply lookup_lt_Some.
    - intros l' Hl'. apply Hold. lia. }
  { unfold h2. rewrite lookup_app_l by (rewrite length_app; simpl; lia).
    apply lookup_alloc. }
  { unfold h2. replace (length h + 1)%nat with (length (h ++ [DictObj false []]))
      by (rewrite length_app; simpl; lia).
    apply lookup_alloc. }
  rewrite Hdfs. exists {| tr_root := length h; tr_list := (length h + 1)%nat |}, h'.
  simpl.
  assert (forall l, (l < length h)%nat -> h' !! l = h !! l) as Hsame.
  { intros l Hl. rewrite Hun' by lia. by apply Hold. }
  split; [done|]. split; [done|]. split.
  { apply (repr_frame t h _ 0 (length h)); try done.
    - apply Hsame. inversion Hrep; subst. by eapply lookup_lt_Some.
    - intros l' Hl'. apply Hsame. lia. }
  split; [rewrite Hsame; [done | by eapply lookup_lt_Some]|].
  split; [lia|]. split; [lia|]. split; [|done].
  apply (repr_frame n' h' _ (length h2) (length h')); try done; lia.
Qed.

Lemma repr_ex_heap : repr ex_heap 0 (length ex_heap) (tr_root ex_ref) ex_node.
Proof.
  apply (repr_intro _ _ _ _ _ [("a"%char, 1%nat); ("c"%char, 3%nat)]);
    [reflexivity|].
  constructor; [|constructor; [|constructor]].
  - split; [reflexivity|]. split; [simpl; lia|]. simpl.
    apply (repr_intro _ _ _ _ _ [("b"%char, 2%nat)]); [reflexivity|].
    constructor; [|constructor].
    split; [reflexivity|]. split; [simpl; lia|]. simpl.
    apply (repr_intro _ _ _ _ _ []); [reflexivity | constructor].
  - split; [reflexivity|]. split; [simpl; lia|]. simpl.
    apply (repr_intro _ _ _ _ _ []); [reflexivity | constructor].
Qed.

Lemma filter_words_leaves_source_witness :
  repr ex_heap 0 (length ex_heap) (tr_root ex_ref) ex_node
  /\ ex_heap !! tr_list ex_ref = Some (ListObj [w "ab"; w "c"])
  /\ (depth ex_node <= 3)%nat
  /\ exists (new_trie : trie_ref) (h' : heap),
       Heap.filter_words ∅ ∅ ∅ (w "c") 3 ex_heap ex_ref ∅ = Some (new_trie, h')
       /\ (forall l, (l < length ex_heap)%nat -> h' !! l = ex_heap !! l).
Proof.
  split; [exact repr_ex_heap|]. split; [reflexivity|]. split; [simpl; lia|].
  destruct (filter_words_leaves_source ∅ ∅ ∅ ∅ (w "c") ex_heap ex_ref ex_node
              [w "ab"; w "c"] 3 repr_ex_heap eq_refl)
    as (new_trie & h' & Hrun & Hsame & _); [simpl; lia|].
  by exists new_trie, h'.
Defined.

(** The same call, run: the five objects of the source are in place,
    and the result is made of the three objects added after them. *)
Lemma filter_words_ex_heap :
  Heap.filter_words ∅ ∅ ∅ (w "c") 3 ex_heap ex_ref ∅
  = Some ({| tr_root := 5%nat; tr_list := 6%nat |},
          ex_heap ++ [ DictObj false [("a"%char, 7%nat)];
                       ListObj [w "ab"];
                       DictObj false [("b"%char, 8%nat)];
                       DictObj true [];
                       DictObj false [] ]).
Proof. vm_compute. reflexivity. Qed.

(** ** The pattern cache *)

Import Guesser.

Lemma row_ok_empty w1 : row_ok w1 ∅.
Proof. intros w2 code Hrow. by rewrite lookup_empty in Hrow. Qed.

Lemma row_ok_insert w1 w2 code row :
  row_ok w1 row -> get_matches w1 w2 = Ok code -> row_ok w1 (<[w2 := code]> row).
Proof.
  intros Hrow Hcode w2' code' Hlook.
  destruct (decide (w2 = w2')) as [<-|Hne].
  - rewrite lookup_insert_eq in Hlook. by injection Hlook as <-.
  - rewrite lookup_insert_ne in Hlook by done. by apply Hrow.
Qed.

Lemma cache_ok_empty : cache_ok ∅.
Proof. intros w1 row w2 code Hc. by rewrite lookup_empty in Hc. Qed.

Lemma cache_ok_row cache w1 :
  cache_ok cache -> row_ok w1 (default ∅ (cache !! w1)).
Proof.
  intros Hc. destruct (cache !! w1) as [row|] eqn:Hrow; simpl.
  - intros w2 code. by apply Hc.
  - apply row_ok_empty.
Qed.

Lemma cache_ok_insert cache w1 row :
  cache_ok cache -> row_ok w1 row -> cache_ok (<[w1 := row]> cache).
Proof.
  intros Hc Hrow w1' row' w2 code Hlook.
  destruct (decide (w1 = w1')) as [<-|Hne].
  - rewrite lookup_insert_eq in Hlook. injection Hlook as <-. apply Hrow.
  - rewrite lookup_insert_ne in Hlook by done. by apply Hc.
Qed.

(** The loop over the targets keeps the row sound, and what it returns
    does not depend on which sound row it started from. *)
Lemma fill_row_sound w1 targets :
  forall cur1 cur2 dist,
    row_ok w1 cur1 -> row_ok w1 cur2 ->
    fst (fill_row w1 targets cur1 dist) = fst (fill_row w1 targets cur2 dist)
    /\ row_ok w1 (snd (fill_row w1 targets cur1 dist)).
Proof.
  induction targets as [|w2 targets IH]; intros cur1 cur2 dist H1 H2; simpl;
    [done|].
  destruct (cur1 !! w2) as [c1|] eqn:E1, (cur2 !! w2) as [c2|] eqn:E2.
  - pose proof (H1 _ _ E1) as G1. pose proof (H2 _ _ E2) as G2.
    assert (c1 = c2) as -> by congruence. by apply IH.
  - rewrite (H1 _ _ E1). apply IH; [done|]. apply row_ok_insert; auto.
  - rewrite (H2 _ _ E2). apply IH; [|done]. apply row_ok_insert; auto.
  - destruct (get_matches w1 w2) as [code|e|] eqn:G; simpl; [|done..].
    apply IH; by apply row_ok_insert.
Qed.

Lemma pattern_distribution_of_sound w1 targets s1 s2 :
  cache_ok (_pattern_cache s1) -> cache_ok (_pattern_cache s2) ->
  fst (pattern_distribution_of w1 targets s1)
  = fst (pattern_distribution_of w1 targets s2)
  /\ cache_ok (_pattern_cache (snd (pattern_distribution_of w1 targets s1))).
Proof.
  intros H1 H2. unfold pattern_distribution_of.
  destruct (fill_row_sound w1 targets
              (default ∅ (_pattern_cache s1 !! w1))
              (default ∅ (_pattern_cache s2 !! w1)) []
              (cache_ok_row _ w1 H1) (cache_ok_row _ w1 H2)) as [Hfst Hrow].
  destruct (fill_row w1 targets (default ∅ (_pattern_cache s1 !! w1)) [])
    as [r1 cur1].
  destruct (fill_row w1 targets (default ∅ (_pattern_cache s2 !! w1)) [])
    as [r2 cur2].
  simpl in *. split; [done|]. by apply cache_ok_insert.
Qed.

Section cache_proofs.
Context {F : Type} `{FloatOps F}.

Lemma best_of_sound sources targets :
  forall (best : word * F) s1 s2,
    cache_ok (_pattern_cache s1) -> cache_ok (_pattern_cache s2) ->
    fst (best_of sources targets best s1) = fst (best_of sources targets best s2)
    /\ cache_ok (_pattern_cache (snd (best_of sources targets best s1))).
Proof.
  induction sources as [|w1 sources IH]; intros best s1 s2 H1 H2; [done|].
  cbn [best_of]. unfold mbind, M_bind, bind.
  destruct (pattern_distribution_of_sound w1 targets s1 s2 H1 H2) as [Hfst Hc1].
  destruct (pattern_distribution_of_sound w1 targets s2 s1 H2 H1) as [_ Hc2].
  destruct (pattern_distribution_of w1 targets s1) as [r1 s1'].
  destruct (pattern_distribution_of w1 targets s2) as [r2 s2'].
  simpl in *. subst r2. destruct r1 as [dist|e|]; [|done..].
  destruct (f_lt (snd best) (entropy_of dist (Z.of_nat (length targets))));
    by apply IH.
Qed.

Lemma get_max_entropy_word_sound sources targets s1 s2 :
  cache_ok (_pattern_cache s1) -> cache_ok (_pattern_cache s2) ->
  fst (get_max_entropy_word sources targets s1)
  = fst (get_max_entropy_word sources targets s2)
  /\ cache_ok (_pattern_cache (snd (get_max_entropy_word sources targets s1))).
Proof.
  intros H1 H2. unfold get_max_entropy_word.
  destruct targets as [|t0 targets]; [done|]. by apply best_of_sound.
Qed.

End cache_proofs.

(** C10: the empty cache holds only codes of [get_matches]; a call of
    [get_max_entropy_word] on a cache that does leaves one that does,
    whether it returns or raises; and the outcome of the call, the word
    and its entropy or the exception, is the same from any two such
    caches, the empty one included. *)
Theorem pattern_cache_invariant
    {F : Type} `{FloatOps F} (sources targets : list word) (s1 s2 : Guesser.t) :
  cache_ok (_pattern_cache s1) -> cache_ok (_pattern_cache s2) ->
  cache_ok ∅
  /\ cache_ok (_pattern_cache (snd (get_max_entropy_word sources targets s1)))
  /\ fst (get_max_entropy_word sources targets s1)
     = fst (get_max_entropy_word sources targets s2)
  /\ fst (get_max_entropy_word sources targets s1)
     = fst (get_max_entropy_word sources targets (set_pattern_cache ∅ s1)).
Proof.
  intros H1 H2. split; [apply cache_ok_empty|].
  destruct (get_max_entropy_word_sound sources targets s1 s2 H1 H2) as [Hfst Hc].
  split; [done|]. split; [done|].
  apply get_max_entropy_word_sound; [done | apply cache_ok_empty].
Qed.

Lemma cache_ok_ex_cached : cache_ok (_pattern_cache ex_cached).
Proof.
  intros w1 row w2 code Hrow Hcode. simpl in Hrow.
  apply lookup_singleton_Some in Hrow as [<- <-].
  apply lookup_singleton_Some in Hcode as [<- <-].
  reflexivity.
Qed.

Lemma pattern_cache_invariant_witness :
  cache_ok (_pattern_cache ex_cached)
  /\ cache_ok (_pattern_cache (set_pattern_cache ∅ ex_started))
  /\ fst (get_max_entropy_word (H := milli) Trie.ex_dict Trie.ex_dict ex_cached)
     = fst (get_max_entropy_word (H := milli) Trie.ex_dict Trie.ex_dict
                                 (set_pattern_cache ∅ ex_started)).
Proof.
  split; [exact cache_ok_ex_cached|]. split; [exact cache_ok_empty|].
  apply (pattern_cache_invariant (H := milli) Trie.ex_dict Trie.ex_dict
           ex_cached (set_pattern_cache ∅ ex_started)
           cache_ok_ex_cached cache_ok_empty).
Defined.

(** ** The entropy scorer's selection *)

(** The floating point values themselves are outside this development.
    What is proved is the shape of the selection: over the entropies as
    the code computes them, and for a comparison that orders them the
    way [<] orders floats that are not NaN, the word returned is the
    first source that no other source beats. *)

Lemma pattern_distribution_of_plain w1 targets s :
  cache_ok (_pattern_cache s) ->
  fst (pattern_distribution_of w1 targets s) = plain_distribution w1 targets.
Proof.
  intros Hc. unfold pattern_distribution_of, plain_distribution.
  destruct (fill_row_sound w1 targets (default ∅ (_pattern_cache s !! w1)) ∅ []
              (cache_ok_row _ w1 Hc) (row_ok_empty w1)) as [Hfst _].
  destruct (fill_row w1 targets (default ∅ (_pattern_cache s !! w1)) []).
  done.
Qed.

Section selection_proofs.
Context {F : Type} `{FloatOps F}.
Hypothesis lt_trans :
  forall a b c : F, f_lt a b = true -> f_lt b c = true -> f_lt a c = true.
Hypothesis lt_irrefl : forall a : F, f_lt a a = false.
Hypothesis lt_between :
  forall a b c : F, f_lt a b = true -> f_lt a c = true \/ f_lt c b = true.

Lemma pick_cons (x : word * F) scores best :
  pick (x :: scores) best = pick scores (if f_lt (snd best) (snd x) then x else best).
Proof. reflexivity. Qed.

Lemma best_of_pick sources targets : forall (best : word * F) s,
  cache_ok (_pattern_cache s) ->
  fst (best_of sources targets best s) =
  match scored sources targets with
  | Ok l => Ok (pick l best)
  | Raise e => Raise e
  | OutOfFuel => OutOfFuel
  end.
Proof.
  induction sources as [|w1 sources IH]; intros best s Hc; [done|].
  cbn [best_of scored]. unfold mbind, M_bind, bind.
  pose proof (pattern_distribution_of_plain w1 targets s Hc) as Hplain.
  destruct (pattern_distribution_of_sound w1 targets s s Hc Hc) as [_ Hc'].
  destruct (pattern_distribution_of w1 targets s) as [r s']. simpl in *.
  rewrite <- Hplain. destruct r as [dist|e|]; [|done..].
  destruct (f_lt (snd best) (entropy_of dist (Z.of_nat (length targets))))
    eqn:Hlt; rewrite IH by done;
    destruct (scored sources targets) as [l|e|]; try done;
    rewrite pick_cons; simpl; by rewrite Hlt.
Qed.

Lemma pick_not_beaten scores : forall best : word * F,
  f_lt (snd (pick scores best)) (snd best) = false
  /\ forall x, x ∈ scores -> f_lt (snd (pick scores best)) (snd x) = false.
Proof.
  induction scores as [|x scores IH]; intros best.
  - simpl. split; [apply lt_irrefl|]. intros x Hx. by apply elem_of_nil in Hx.
  - rewrite pick_cons. destruct (f_lt (snd best) (snd x)) eqn:Hbx.
    + destruct (IH x) as [Hx Hrest]. split.
      * destruct (f_lt (snd (pick scores x)) (snd best)) eqn:E; [|done].
        rewrite (lt_trans _ _ _ E Hbx) in Hx. done.
      * intros y Hy. apply elem_of_cons in Hy as [->|Hy]; auto.
    + destruct (IH best) as [Hb Hrest]. split; [done|].
      intros y Hy. apply elem_of_cons in Hy as [->|Hy]; [|auto].
      destruct (f_lt (snd (pick scores best)) (snd x)) eqn:E; [|done].
      destruct (lt_between _ _ (snd best) E) as [E'|E']; congruence.
Qed.

Lemma pick_first scores : forall best : word * F,
  pick scores best = best
  \/ exists i, scores !! i = Some (pick scores best)
               /\ f_lt (snd best) (snd (pick scores best)) = true
               /\ forall j y, (j < i)%nat -> scores !! j = Some y ->
                              f_lt (snd y) (snd (pick scores best)) = true.
Proof.
  induction scores as [|x scores IH]; intros best; [by left|].
  rewrite pick_cons. destruct (f_lt (snd best) (snd x)) eqn:Hbx.
  - right. destruct (IH x) as [Heq | (i & Hi & Hlt & Hbefore)].
    + exists 0%nat. rewrite Heq. split; [done|]. split; [done|]. intros; lia.
    + exists (S i). split; [done|]. split; [by eapply lt_trans|].
      intros [|j] y Hj Hy; simpl in Hy.
      * by injection Hy as <-.
      * apply (Hbefore j); [lia | done].
  - destruct (IH best) as [Heq | (i & Hi & Hlt & Hbefore)]; [by left|].
    right. exists (S i). split; [done|]. split; [done|].
    intros [|j] y Hj Hy; simpl in Hy.
    + injection Hy as <-.
      destruct (lt_between _ _ (snd x) Hlt) as [E|E]; [congruence | done].
    + apply (Hbefore j); [lia | done].
Qed.

(** What [get_max_entropy_word] returns on targets that are not empty:
    no source has a computed entropy above the returned one, and the
    returned word is the first source whose entropy exceeds the start
    value and all entropies before it. *)
Lemma get_max_entropy_word_first_maximum sources targets s best e :
  cache_ok (_pattern_cache s) -> targets <> [] ->
  fst (get_max_entropy_word sources targets s) = Ok (best, e) ->
  exists scores,
    scored sources targets = Ok scores
    /\ (forall x, x ∈ scores -> f_lt e (snd x) = false)
    /\ ((best, e) = ([], f_neg_inf)
        \/ exists i, scores !! i = Some (best, e)
                     /\ sources !! i = Some best
                     /\ forall j y, (j < i)%nat -> scores !! j = Some y ->
                                    f_lt (snd y) e = true).
Proof.
  intros Hc Hne Hrun. unfold get_max_entropy_word in Hrun.
  destruct targets as [|t0 targets]; [done|].
  rewrite best_of_pick in Hrun by done.
  destruct (scored sources (t0 :: targets)) as [scores|e'|] eqn:Hscored;
    try discriminate.
  injection Hrun as Hpick. exists scores. split; [done|].
  destruct (pick_not_beaten scores ([], f_neg_inf)) as [_ Hmax].
  rewrite Hpick in Hmax. split; [exact Hmax|].
  destruct (pick_first scores ([], f_neg_inf)) as [Heq | (i & Hi & _ & Hbefore)].
  - left. congruence.
  - right. rewrite Hpick in Hi, Hbefore. exists i. split; [done|]. split; [|done].
    clear -Hscored Hi. revert scores i Hscored Hi.
    induction sources as [|w1 sources IH]; intros scores i Hscored Hi; simpl in *.
    + injection Hscored as <-. done.
    + destruct (plain_distribution w1 (t0 :: targets)); try discriminate.
      destruct (scored sources (t0 :: targets)) as [l|e'|]; try discriminate.
      injection Hscored as <-. destruct i as [|i]; simpl in *.
      * by injection Hi as <- _.
      * by apply (IH l).
Qed.

End selection_proofs.

(** ** The entropy scorer's choice *)










(** ** The guess strategist *)

(** C7, as the code has it: [restart_game] empties the guess history,
    makes the working word list the full dictionary and drops the
    per-game trie; the pattern cache, the opening word, the dictionary
    and its trie are untouched, and so are the constraint attributes,
    which are not reset: they keep the values they had before the
    call. *)
Theorem restart_game_resets (self : Guesser.t) :
  fst (restart_game self) = Ok tt
  /\ _tried (snd (restart_game self)) = []
  /\ word_list (snd (restart_game self)) = _word_list self
  /\ word_trie (snd (restart_game self)) = None
  /\ _word_list (snd (restart_game self)) = _word_list self
  /\ _word_trie (snd (restart_game self)) = _word_trie self
  /\ _pattern_cache (snd (restart_game self)) = _pattern_cache self
  /\ opening (snd (restart_game self)) = opening self
  /\ constraints (snd (restart_game self)) = constraints self.
Proof. repeat split. Qed.

(** C7 as stated fails on the constraint set: after a round with the
    feedback [a++--] on the guess [angle], a restart leaves the yellow,
    gray and green knowledge of that round in place. *)
Lemma restart_game_keeps_constraints :
  _tried ex_round1 = [w "angle"]
  /\ constraints (snd (restart_game ex_round2))
     = Some {| yellow := {[ "l"%char := 1%nat; "e"%char := 1%nat ]};
               gray := {[ "n"%char; "g"%char ]};
               green_pos := {[ 0%nat := "a"%char ]};
               gray_pos := {[ 1%nat := "n"%char; 2%nat := "g"%char;
                              3%nat := "l"%char; 4%nat := "e"%char ]} |}
  /\ constraints (snd (restart_game ex_round2)) <> Some empty_constraints.
Proof.
  split; [vm_compute; reflexivity|].
  split; [vm_compute; reflexivity|].
  vm_compute. discriminate.
Qed.

(** C4: when the word list holds exactly one word, [_get_guess] returns
    it. The only effect of the call is the refresh of the letter
    frequencies: the pattern cache, which every entropy scoring goes
    through, is as before, no random draw is made, and the floating
    point operations play no part, whatever they are. *)
Theorem get_guess_single_candidate
    {F : Type} `{FloatOps F} (self : Guesser.t) (only : word) :
  word_list self = [only] -> length only = 5%nat ->
  _get_guess (F := F) self = (Ok only, snd (update_frequencies self))
  /\ fst (update_frequencies self) = Ok tt
  /\ _pattern_cache (snd (_get_guess (F := F) self)) = _pattern_cache self
  /\ rng_pos (snd (_get_guess (F := F) self)) = rng_pos self
  /\ _tried (snd (_get_guess (F := F) self)) = _tried self
  /\ word_list (snd (_get_guess (F := F) self)) = [only].
Proof.
  intros Hwl Hlen.
  destruct only as [|c0 [|c1 [|c2 [|c3 [|c4 [|c5 rest]]]]]]; try discriminate.
  unfold _get_guess, update_frequencies, mbind, M_bind, bind, get.
  rewrite Hwl. simpl. rewrite Hwl. done.
Qed.

Lemma get_guess_single_candidate_witness :
  word_list (set_word_list [w "axles"] ex_round1) = [w "axles"]
  /\ length (w "axles") = 5%nat
  /\ fst (_get_guess (H := milli) (set_word_list [w "axles"] ex_round1))
     = Ok (w "axles").
Proof.
  split; [reflexivity|]. split; [reflexivity|].
  destruct (get_guess_single_candidate (H := milli)
              (set_word_list [w "axles"] ex_round1) (w "axles")
              eq_refl eq_refl) as [Hrun _].
  by rewrite Hrun.
Defined.

(** The round of the scenario that leaves one candidate: the guess is
    that candidate. *)
Lemma get_guess_last_candidate :
  word_list ex_round2 = [w "axles"]
  /\ fst (get_guess (H := milli) 1 [] (w "a++--") ex_round1) = Ok (w "axles").
Proof. split; vm_compute; reflexivity. Qed.

(** C8 at a dictionary that uses one letter only: the constructor
    succeeds with the one-letter opening [a], and the first call of
    [get_guess] raises [ValueError], because the loop that is to avoid
    crashes draws from the letters of an empty guess history. It does
    so whatever the floating point operations, the random source and
    the feedback are. *)
Theorem get_guess_raises_on_one_letter
    {F : Type} `{FloatOps F} (source : nat -> nat) (fuel : nat)
    (typed feedback : word) :
  fst (init (F := F) false [w "aaaaa"] source) = Ok tt
  /\ opening (ex_one_letter (F := F) source) = w "a"
  /\ _tried (ex_one_letter (F := F) source) = []
  /\ fst (get_guess (F := F) (S fuel) typed feedback
                    (ex_one_letter (F := F) source))
     = Raise ValueError.
Proof. repeat split. Qed.

(** ** The guess history *)

(** Only the last step of [get_guess] writes [_tried]; everything it
    calls before leaves the history as it is. *)

Lemma keeps_ret {A} (a : A) : keeps_tried (ret a).
Proof. by intros s. Qed.

Lemma keeps_mret {A} (a : A) : keeps_tried (mret a : M A).
Proof. by intros s. Qed.

Lemma keeps_raise {A} e : keeps_tried (raise e : M A).
Proof. by intros s. Qed.

Lemma keeps_get {A} (f : Guesser.t -> A) : keeps_tried (get f).
Proof. by intros s. Qed.

Lemma keeps_lift {A} (r : result A) : keeps_tried (lift r).
Proof. by intros s. Qed.

Lemma keeps_expect {A} e (o : option A) : keeps_tried (expect e o).
Proof. by destruct o. Qed.

Lemma keeps_assign (f : Guesser.t -> Guesser.t) :
  (forall s, _tried (f s) = _tried s) -> keeps_tried (assign f).
Proof. intros Hf s. apply Hf. Qed.

Lemma keeps_bind {A B} (m : M A) (k : A -> M B) :
  keeps_tried m -> (forall a, keeps_tried (k a)) -> keeps_tried (m ≫= k).
Proof.
  intros Hm Hk s. unfold mbind, M_bind, bind.
  specialize (Hm s). destruct (m s) as [[a|e|] s']; simpl in *; [|done..].
  by rewrite Hk.
Qed.

Create HintDb keeps discriminated.
#[local] Hint Resolve keeps_ret keeps_mret keeps_raise keeps_get keeps_lift
  keeps_expect : keeps.

(** Goals of the form [keeps_tried m]: descend through the binds and
    the case distinctions of [m]. *)
Ltac keeps :=
  repeat first
    [ solve [eauto with keeps]
    | match goal with |- forall _, _ => intro end
    | apply keeps_bind
    | apply keeps_assign; intros; reflexivity
    | match goal with
      | |- keeps_tried (match ?x with _ => _ end) => destruct x
      | |- keeps_tried (if ?b then _ else _) => destruct b
      | |- keeps_tried (let _ := _ in _) => cbv zeta
      end ].

Lemma keeps_for_each {A} (l : list A) (body : A -> M unit) :
  (forall x, keeps_tried (body x)) -> keeps_tried (for_each l body).
Proof. intros Hbody. induction l as [|x l IH]; simpl; keeps. Qed.

Lemma keeps_collect {A B} (l : list A) (body : A -> M B) :
  (forall x, keeps_tried (body x)) -> keeps_tried (collect l body).
Proof. intros Hbody. induction l as [|x l IH]; simpl; keeps. Qed.

Lemma keeps_next_draw : keeps_tried next_draw.
Proof. by intros s. Qed.
#[local] Hint Resolve keeps_next_draw : keeps.

Lemma keeps_random_choice a size : keeps_tried (random_choice a size).
Proof. induction size as [|size IH]; simpl; keeps. Qed.
#[local] Hint Resolve keeps_random_choice : keeps.

Lemma keeps_random_keys letters : keeps_tried (random_keys letters).
Proof. induction letters as [|c letters IH]; simpl; keeps. Qed.
#[local] Hint Resolve keeps_random_keys : keeps.

Lemma keeps_sorted_by_random letters : keeps_tried (sorted_by_random letters).
Proof. unfold sorted_by_random. keeps. Qed.
#[local] Hint Resolve keeps_sorted_by_random : keeps.

Lemma keeps_update_frequencies : keeps_tried update_frequencies.
Proof. unfold update_frequencies. keeps. Qed.
#[local] Hint Resolve keeps_update_frequencies : keeps.

Lemma keeps_pattern_distribution_of w1 targets :
  keeps_tried (pattern_distribution_of w1 targets).
Proof.
  intros s. unfold pattern_distribution_of.
  by destruct (fill_row w1 targets (default ∅ (_pattern_cache s !! w1)) []).
Qed.
#[local] Hint Resolve keeps_pattern_distribution_of : keeps.

Section history_proofs.
Context {F : Type} `{FloatOps F}.

Lemma keeps_best_of sources targets (best : word * F) :
  keeps_tried (best_of sources targets best).
Proof. revert best. induction sources as [|w1 sources IH]; simpl; keeps. Qed.
#[local] Hint Resolve keeps_best_of : keeps.

Lemma keeps_get_max_entropy_word sources targets :
  keeps_tried (get_max_entropy_word (F := F) sources targets).
Proof. unfold get_max_entropy_word. keeps. Qed.
#[local] Hint Resolve keeps_get_max_entropy_word : keeps.

Lemma keeps_frequency_guess_non_word :
  keeps_tried (frequency_guess_non_word (F := F)).
Proof.
  unfold frequency_guess_non_word. keeps.
Qed.
#[local] Hint Resolve keeps_frequency_guess_non_word : keeps.

Lemma keeps_get_shortcut_words : keeps_tried get_shortcut_words.
Proof. unfold get_shortcut_words. keeps. Qed.
#[local] Hint Resolve keeps_get_shortcut_words : keeps.

Lemma keeps__get_guess : keeps_tried (_get_guess (F := F)).
Proof.
  unfold _get_guess. keeps.
Qed.
#[local] Hint Resolve keeps__get_guess : keeps.

Lemma keeps_read_feedback feedback il : keeps_tried (read_feedback feedback il).
Proof. unfold read_feedback. keeps. Qed.
#[local] Hint Resolve keeps_read_feedback keeps_for_each keeps_collect : keeps.

Lemma keeps_subset_trie feedback : keeps_tried (subset_trie feedback).
Proof.
  unfold subset_trie. keeps.
Qed.
#[local] Hint Resolve keeps_subset_trie : keeps.

Lemma avoid_crashes_unfold fuel guess s :
  avoid_crashes fuel guess s =
  if bool_decide (guess ∈ _tried s) || negb (length guess =? 5)%nat
  then
    match fuel with
    | O => (OutOfFuel, s)
    | S fuel' =>
        match random_choice (concat (_tried s)) 5 s with
        | (Ok letters, s1) => avoid_crashes fuel' letters s1
        | (Raise e, s1) => (Raise e, s1)
        | (OutOfFuel, s1) => (OutOfFuel, s1)
        end
    end
  else (Ok guess, s).
Proof.
  destruct fuel; cbn [avoid_crashes]; unfold mbind, M_bind, bind, get;
    cbn [fst snd];
    by destruct (bool_decide (guess ∈ _tried s) || negb (length guess =? 5)%nat).
Qed.

(** When the loop that replaces an unusable guess ends, its result has
    five letters and is not in the history, which it did not touch. *)
Lemma avoid_crashes_fresh fuel : forall guess s g,
  fst (avoid_crashes fuel guess s) = Ok g ->
  length g = 5%nat /\ (g ∉ _tried s)
  /\ _tried (snd (avoid_crashes fuel guess s)) = _tried s.
Proof.
  induction fuel as [|fuel IH]; intros guess s g; rewrite avoid_crashes_unfold;
    destruct (bool_decide (guess ∈ _tried s) || negb (length guess =? 5)%nat)
      eqn:Hbad.
  - discriminate.
  - intros [= <-]. apply orb_false_iff in Hbad as [Hin Hlen].
    apply bool_decide_eq_false in Hin. apply negb_false_iff, Nat.eqb_eq in Hlen.
    done.
  - pose proof (keeps_random_choice (concat (_tried s)) 5 s) as Hkeep.
    destruct (random_choice (concat (_tried s)) 5 s) as [[l|e|] s1];
      try discriminate.
    intros Hrun. destruct (IH l s1 g Hrun) as (Hlen & Hnotin & Hsame).
    cbn [snd] in Hkeep. rewrite <- Hkeep. done.
  - intros [= <-]. apply orb_false_iff in Hbad as [Hin Hlen].
    apply bool_decide_eq_false in Hin. apply negb_false_iff, Nat.eqb_eq in Hlen.
    done.
Qed.

(** A guess that [get_guess] does return, outside manual mode, has five
    letters, was not in the history at the call, and is appended to
    it. *)
Lemma get_guess_returns_fresh fuel typed feedback s g s' :
  _manual s = false ->
  get_guess (F := F) fuel typed feedback s = (Ok g, s') ->
  length g = 5%nat /\ (g ∉ _tried s) /\ _tried s' = _tried s ++ [g].
Proof.
  intros Hmanual. unfold get_guess.
  unfold mbind at 1, M_bind at 1, bind at 1, get at 1. cbv beta. rewrite Hmanual.
  unfold mbind at 1, M_bind at 1, bind at 1, get at 1. cbv beta.
  unfold mbind at 1, M_bind at 1, bind at 1.
  match goal with
  | |- (let (_, _) := ?m s in _) = _ -> _ =>
      assert (keeps_tried m) as Hpre by keeps;
      specialize (Hpre s); destruct (m s) as [[[]|e|] s1]; try discriminate
  end.
  unfold mbind at 1, M_bind at 1, bind at 1, get at 1. cbv beta.
  unfold mbind at 1, M_bind at 1, bind at 1.
  match goal with
  | |- (let (_, _) := ?m s1 in _) = _ -> _ =>
      assert (keeps_tried m) as Hchoose by keeps;
      specialize (Hchoose s1); destruct (m s1) as [[g0|e|] s2]; try discriminate
  end.
  unfold mbind at 1, M_bind at 1, bind at 1.
  pose proof (avoid_crashes_fresh fuel g0 s2) as Hloop.
  destruct (avoid_crashes fuel g0 s2) as [[g1|e|] s3]; try discriminate.
  unfold mbind, M_bind, bind, assign, ret. cbv beta.
  intros [= <- <-]. destruct (Hloop g1 eq_refl) as (Hlen & Hnotin & Hsame).
  cbn [fst snd] in *. rewrite Hchoose, Hpre in *.
  split; [done|]. split; [done|]. simpl. by rewrite Hsame.
Qed.

End history_proofs.
